(** * Name reconciliation: normalizer, set reconciler and result cache

    A shallow embedding of the matching core of the company-checking
    application:

    - [lib/parse.ts]   : [splitLines], [normalizeLine], [toUniqueSet];
    - [lib/compare.ts] : [setIntersection], [setDifference];
    - [app/company-checking/page.tsx] : the [results] memo and
      [getOriginalList];
    - [app/api/matching/route.ts] : the [GET] read of the latest
      [matching_summary] row.

    The filter reference extraction and the result cache of the Python
    backend are not among the sources; they are modelled from the
    specification in the modules [FilterRegistry] and [Orchestrator].

    JavaScript values are modelled as the code uses them: a string is its
    sequence of UTF-16 code units, a [Set] is the list of its elements in
    insertion order, a [Map] is the list of its entries in insertion order,
    counters are natural numbers (they never exceed an array length). *)

From Stdlib Require Import Strings.Ascii.
From Stdlib Require DecimalPos.
From stdpp Require Import base numbers list gmap strings sorting.

(** ** JavaScript strings *)

(** A string is the list of its UTF-16 code units. *)
Abbreviation jsstring := (list N).

(** Literals: an ASCII Rocq string read as code units. *)
Fixpoint js (s : string) : jsstring :=
  match s with
  | EmptyString => []
  | String a rest => N_of_ascii a :: js rest
  end.

Definition NBSP : N := 0xA0.
Definition SPACE : N := 0x20.
Definition LF : N := 0x0A.
Definition CR : N := 0x0D.

(** [WhiteSpace] and [LineTerminator] code points of ECMAScript, the
    characters [String.prototype.trim] strips. *)
Definition isWhiteSpace (c : N) : bool :=
  (c =? 0x09)%N || (c =? 0x0A)%N || (c =? 0x0B)%N || (c =? 0x0C)%N
  || (c =? 0x0D)%N || (c =? 0x20)%N || (c =? 0xA0)%N || (c =? 0x1680)%N
  || ((0x2000 <=? c)%N && (c <=? 0x200A)%N)
  || (c =? 0x2028)%N || (c =? 0x2029)%N || (c =? 0x202F)%N
  || (c =? 0x205F)%N || (c =? 0x3000)%N || (c =? 0xFEFF)%N.

Fixpoint trimStart (s : jsstring) : jsstring :=
  match s with
  | [] => []
  | c :: rest => if isWhiteSpace c then trimStart rest else s
  end.

Definition trimEnd (s : jsstring) : jsstring := reverse (trimStart (reverse s)).

(** [String.prototype.trim]. *)
Definition String_trim (s : jsstring) : jsstring := trimEnd (trimStart s).

(** A string that does not start with white space. *)
Definition startsClean (s : jsstring) : Prop :=
  match s with
  | [] => True
  | c :: _ => isWhiteSpace c = false
  end.

(** The global replace of every U+00A0 by a space. *)
Definition replaceNbsp (s : jsstring) : jsstring :=
  (λ c, if (c =? NBSP)%N then SPACE else c) <$> s.

(** Lower-casing restricted to the ASCII letters; every implementation of
    [String.prototype.toLowerCase] agrees with it on ASCII input. *)
Definition asciiLowerUnit (c : N) : N :=
  if (0x41 <=? c)%N && (c <=? 0x5A)%N then (c + 0x20)%N else c.

Definition asciiToLowerCase (s : jsstring) : jsstring := asciiLowerUnit <$> s.

Definition isAscii (s : jsstring) : Prop := Forall (λ c, (c < 0x80)%N) s.

(** A line made of white space and non-breaking spaces only. *)
Definition isBlank (s : jsstring) : Prop := Forall (λ c, isWhiteSpace c = true) s.

(** ** [Set] and [Map] in insertion order *)

Module JSSet.
Section ops.
Context {T : Type} `{EqDecision T}.

(** [new Set()] *)
Definition newSet : list T := [].

(** [s.has(x)] *)
Definition has (s : list T) (x : T) : bool := bool_decide (x ∈ s).

(** [s.add(x)]: a new element goes last, a present one changes nothing. *)
Definition add (s : list T) (x : T) : list T :=
  if has s x then s else s ++ [x].

(** [s.size] *)
Definition size (s : list T) : nat := length s.

End ops.
End JSSet.

Module JSMap.
Section ops.
Context {K V : Type} `{EqDecision K}.

(** [new Map()] *)
Definition newMap : list (K * V) := [].

(** [m.get(k)], [None] for [undefined]. *)
Fixpoint get (m : list (K * V)) (k : K) : option V :=
  match m with
  | [] => None
  | (k', v) :: rest => if decide (k = k') then Some v else get rest k
  end.

(** [m.set(k, v)]: an existing key keeps its position, a new key goes
    last. *)
Fixpoint set (m : list (K * V)) (k : K) (v : V) : list (K * V) :=
  match m with
  | [] => [(k, v)]
  | (k', v') :: rest =>
      if decide (k = k') then (k, v) :: rest else (k', v') :: set rest k v
  end.

Definition keys (m : list (K * V)) : list K := fst <$> m.

End ops.
End JSMap.

(** The mathematical set of the elements of a [Set]. *)
Definition keySet `{Countable T} (s : list T) : gset T := list_to_set s.

(** ** lib/compare.ts *)

Section compare.
Context {T : Type} `{EqDecision T}.

(** The loop [for (const item of src) if (keep(item)) result.add(item)]. *)
Definition collect (keep : T → bool) (src : list T) (result : list T) : list T :=
  foldl (λ result item, if keep item then JSSet.add result item else result)
        result src.

Definition setIntersection (a b : list T) : list T :=
  let result := JSSet.newSet in
  let smaller := if JSSet.size a <=? JSSet.size b then a else b in
  let larger := if JSSet.size a <=? JSSet.size b then b else a in
  collect (λ item, JSSet.has larger item) smaller result.

Definition setDifference (a b : list T) : list T :=
  let result := JSSet.newSet in
  collect (λ item, negb (JSSet.has b item)) a result.

End compare.

(** ** lib/parse.ts *)

Record NormalizeOptions := {
  trim : bool;
  caseInsensitive : bool;
}.

(** The result object of [toUniqueSet]. *)
Record UniqueSet := {
  set : list jsstring;
  normalizedToOriginals : list (jsstring * list jsstring);
  totalCount : nat;
  uniqueCount : nat;
}.

(** The three variables of the loop of [toUniqueSet]. *)
Record LoopState := {
  ls_set : list jsstring;
  ls_map : list (jsstring * list jsstring);
  ls_total : nat;
}.

(** The object the [results] memo of the page returns. *)
Record Results := {
  aTotal : nat;
  bTotal : nat;
  aUnique : nat;
  bUnique : nat;
  matches : list jsstring;
  onlyA : list jsstring;
  onlyB : list jsstring;
}.

(** The replace of every CR LF pair and every lone CR by LF. *)
Fixpoint normalizeNewlines (s : jsstring) : jsstring :=
  match s with
  | [] => []
  | c :: rest =>
      if (c =? CR)%N then
        match rest with
        | c' :: rest' =>
            if (c' =? LF)%N then LF :: normalizeNewlines rest'
            else LF :: normalizeNewlines rest
        | [] => [LF]
        end
      else c :: normalizeNewlines rest
  end.

(** The split at every LF: always at least one piece. *)
Fixpoint splitOnLF (s : jsstring) (current : jsstring) : list jsstring :=
  match s with
  | [] => [current]
  | c :: rest =>
      if (c =? LF)%N then current :: splitOnLF rest []
      else splitOnLF rest (current ++ [c])
  end.

Definition splitLines (raw : jsstring) : list jsstring :=
  match raw with
  | [] => []
  | _ => splitOnLF (normalizeNewlines raw) []
  end.

(** The number of raw lines a [normalizedToOriginals] map holds. *)
Definition originalsCount {K A : Type} (m : list (K * list A)) : nat :=
  sum_list ((λ entry, length entry.2) <$> m).

Section parse.

(** [String.prototype.toLowerCase] of the host: its Unicode case tables
    are not part of the repository. *)
Variable toLowerCase : jsstring → jsstring.

Definition normalizeLine (line : jsstring) (options : NormalizeOptions) : jsstring :=
  let result := line in
  let result := replaceNbsp result in
  let result := if trim options then String_trim result else result in
  let result := if caseInsensitive options then toLowerCase result else result in
  result.

(** One iteration of [for (const raw of lines)]. *)
Definition loopBody (options : NormalizeOptions) (st : LoopState) (raw : jsstring)
  : LoopState :=
  let normalized := normalizeLine raw options in
  if length normalized =? 0 then st
  else
    let totalCount := ls_total st + 1 in
    let set :=
      if negb (JSSet.has (ls_set st) normalized)
      then JSSet.add (ls_set st) normalized else ls_set st in
    let arr := default [] (JSMap.get (ls_map st) normalized) in
    let arr := arr ++ [raw] in
    let map := JSMap.set (ls_map st) normalized arr in
    {| ls_set := set; ls_map := map; ls_total := totalCount |}.

Definition initialState : LoopState :=
  {| ls_set := JSSet.newSet; ls_map := JSMap.newMap; ls_total := 0 |}.

Definition toUniqueSet (lines : list jsstring) (options : NormalizeOptions)
  : UniqueSet :=
  let st := foldl (loopBody options) initialState lines in
  {| set := ls_set st;
     normalizedToOriginals := ls_map st;
     totalCount := ls_total st;
     uniqueCount := JSSet.size (ls_set st) |}.

(** ** app/company-checking/page.tsx *)

(** The body of the [results] memo after the two [splitLines] calls. *)
Definition reconcile (linesA linesB : list jsstring) (options : NormalizeOptions)
  : Results :=
  let a := toUniqueSet linesA options in
  let b := toUniqueSet linesB options in
  let matches := setIntersection (set a) (set b) in
  let onlyA := setDifference (set a) (set b) in
  let onlyB := setDifference (set b) (set a) in
  {| aTotal := totalCount a;
     bTotal := totalCount b;
     aUnique := uniqueCount a;
     bUnique := uniqueCount b;
     matches := matches;
     onlyA := onlyA;
     onlyB := onlyB |}.

Definition results (debouncedA debouncedB : jsstring) (options : NormalizeOptions)
  : Results :=
  reconcile (splitLines debouncedA) (splitLines debouncedB) options.

(** [getOriginalList]: originals from A first, then from B, then the key
    itself. [originals[0]] of an empty array is [undefined], here [None]. *)
Definition getOriginalList (textA textB : jsstring) (options : NormalizeOptions)
    (keys : list jsstring) : list (option jsstring) :=
  let a := toUniqueSet (splitLines textA) options in
  let b := toUniqueSet (splitLines textB) options in
  foldl (λ out k,
           let originals :=
             match JSMap.get (normalizedToOriginals a) k with
             | Some o => o
             | None =>
                 match JSMap.get (normalizedToOriginals b) k with
                 | Some o => o
                 | None => [k]
                 end
             end in
           out ++ [head originals])
        [] keys.

(** The lines [toUniqueSet] accepts: those whose normalization is not the
    empty string. *)
Definition accepted (lines : list jsstring) (options : NormalizeOptions)
  : list jsstring :=
  filter (λ raw, normalizeLine raw options ≠ []) lines.

(** The raw lines that normalize to the key [k], in input order. *)
Definition occurrences (lines : list jsstring) (options : NormalizeOptions)
    (k : jsstring) : list jsstring :=
  filter (λ raw, normalizeLine raw options = k) lines.

(** What holds of the loop variables of [toUniqueSet] after the lines
    [lines]. *)
Record LoopInv (options : NormalizeOptions) (lines : list jsstring)
    (st : LoopState) : Prop := {
  inv_nodup : NoDup (ls_set st);
  inv_elem : ∀ k, k ∈ ls_set st
                  ↔ k ≠ [] ∧ ∃ raw, raw ∈ lines ∧ normalizeLine raw options = k;
  inv_keys : JSMap.keys (ls_map st) = ls_set st;
  inv_get : ∀ k, JSMap.get (ls_map st) k
                 = if decide (k ∈ ls_set st)
                   then Some (occurrences lines options k) else None;
  inv_total : ls_total st = length (accepted lines options);
  inv_count : originalsCount (ls_map st) = ls_total st;
}.

End parse.

(** ** app/api/matching/route.ts, [GET]: the latest summary row *)

Section summaries.

(** The values of the [created_at] column with the order SQLite sorts them
    by; the schema of [matching_summary] is fixed by the backend. *)
Variable Timestamp : Type.
Variable ts_leb : Timestamp → Timestamp → bool.

(** A row of [matching_summary], with the columns the handler reads;
    [None] is SQL [NULL]. *)
Record SummaryRow := {
  filter_id : option jsstring;
  filter_name : option jsstring;
  matching_companies : option Z;
  non_matching_pipedrive : option Z;
  created_at : Timestamp;
}.

(** [filterId === null || filterId === 'null' || filterId === ''] *)
Definition isOriginalData (filterId : option jsstring) : bool :=
  match filterId with
  | None => true
  | Some s => bool_decide (s = js "null") || bool_decide (s = [])
  end.

(** The [WHERE] clause of the query the handler builds. *)
Definition whereClause (filterId : option jsstring) (row : SummaryRow) : bool :=
  if isOriginalData filterId then
    match filter_id row with
    | None => true
    | Some s => bool_decide (s = [])
    end
  else
    match filter_id row with
    | None => false
    | Some s => bool_decide (Some s = filterId)
    end.

(** [ORDER BY created_at DESC LIMIT 1]: a row with the greatest
    [created_at]; among equal ones the first of the table (SQL leaves that
    choice open). *)
Fixpoint orderByCreatedAtDescLimit1 (rows : list SummaryRow) : option SummaryRow :=
  match rows with
  | [] => None
  | row :: rest =>
      match orderByCreatedAtDescLimit1 rest with
      | None => Some row
      | Some best =>
          if ts_leb (created_at best) (created_at row) then Some row else Some best
      end
  end.

(** [db.get(query, params)] on the table [rows]. *)
Definition selectLatest (filterId : option jsstring) (rows : list SummaryRow)
  : option SummaryRow :=
  orderByCreatedAtDescLimit1 (filter (λ row, whereClause filterId row = true) rows).

(** The JSON body of the response. *)
Record PieData := {
  running : Z;
  notActive : Z;
  pd_filterId : option jsstring;
  pd_filterName : option jsstring;
  hasData : bool;
  lastUpdated : option Timestamp;
}.

(** [value || 0] on a number or [NULL]. *)
Definition orZero (v : option Z) : Z := default 0%Z v.

Definition GET (filterId : option jsstring) (rows : list SummaryRow) : PieData :=
  match selectLatest filterId rows with
  | None =>
      {| running := 0; notActive := 0; pd_filterId := filterId;
         pd_filterName := None; hasData := false; lastUpdated := None |}
  | Some row =>
      {| running := orZero (matching_companies row);
         notActive := orZero (non_matching_pipedrive row);
         pd_filterId := filterId;
         pd_filterName := filter_name row;
         hasData := true;
         lastUpdated := Some (created_at row) |}
  end.

End summaries.

Arguments filter_id {Timestamp} _.
Arguments filter_name {Timestamp} _.
Arguments matching_companies {Timestamp} _.
Arguments non_matching_pipedrive {Timestamp} _.
Arguments created_at {Timestamp} _.
Arguments whereClause {Timestamp} _ _.
Arguments orderByCreatedAtDescLimit1 {Timestamp} _ _.
Arguments selectLatest {Timestamp} _ _ _.
Arguments GET {Timestamp} _ _ _.
Arguments hasData {Timestamp} _.
Arguments running {Timestamp} _.
Arguments notActive {Timestamp} _.
Arguments pd_filterId {Timestamp} _.
Arguments pd_filterName {Timestamp} _.
Arguments lastUpdated {Timestamp} _.

(** ** Filter Registry: filter reference extraction

    The backend function is not among the sources; the definitions of this
    module model the rule the specification gives for it. *)

Module FilterRegistry.

Inductive ErrorKind :=
  | InvalidReferenceError
  | FilterNotFoundError
  | ExternalFetchError
  | StorageError
  | ConcurrencyConflictError.

Definition isDigit (a : ascii) : bool :=
  (48 <=? nat_of_ascii a) && (nat_of_ascii a <=? 57).

(** The maximal run of digits a string starts with. *)
Fixpoint takeDigits (s : string) : string :=
  match s with
  | EmptyString => EmptyString
  | String a rest => if isDigit a then String a (takeDigits rest) else EmptyString
  end.

Fixpoint allDigits (s : string) : bool :=
  match s with
  | EmptyString => true
  | String a rest => isDigit a && allDigits rest
  end.

Fixpoint hasDigit (s : string) : bool :=
  match s with
  | EmptyString => false
  | String a rest => isDigit a || hasDigit rest
  end.

Definition startsWithDigit (s : string) : bool :=
  match s with
  | EmptyString => false
  | String a _ => isDigit a
  end.

(** [Some rest] when [s] is [lit] followed by [rest]. *)
Fixpoint stripPrefix (lit s : string) : option string :=
  match lit, s with
  | EmptyString, _ => Some s
  | String a lit', String b s' =>
      if decide (a = b) then stripPrefix lit' s' else None
  | String _ _, EmptyString => None
  end.

(** The maximal digit run that directly follows [lit] at the start of [s],
    when there is one. *)
Definition digitsHere (lit s : string) : option string :=
  match stripPrefix lit s with
  | Some rest =>
      match takeDigits rest with
      | EmptyString => None
      | digits => Some digits
      end
  | None => None
  end.

(** Modelled from the spec: the search the extraction rule describes, the
    first place of [s], from the left, where [lit] is directly followed by
    a digit, and the maximal digit run there. *)
Fixpoint digitsAfter (lit s : string) : option string :=
  match digitsHere lit s with
  | Some digits => Some digits
  | None =>
      match s with
      | EmptyString => None
      | String _ rest => digitsAfter lit rest
      end
  end.

(** Modelled from the spec: [extract_filter_id_from_url] of the backend's
    [pipedrive.py], which is documented in the backend README but is not
    among the sources. The rule of the spec: the digits that follow a
    literal [filters/], then the digits given as the value of [filter_id=],
    then the first run of digits anywhere; [InvalidReferenceError] when
    there is no digit at all. *)
Definition resolveFilterReference (reference : string) : ErrorKind + string :=
  match digitsAfter "filters/" reference with
  | Some digits => inr digits
  | None =>
      match digitsAfter "filter_id=" reference with
      | Some digits => inr digits
      | None =>
          match digitsAfter "" reference with
          | Some digits => inr digits
          | None => inl InvalidReferenceError
          end
      end
  end.

(** Modelled from the spec: the words of the extraction rule, as a
    relation on strings. [digits] is a maximal run of digits that directly
    follows the occurrence of the literal [lit] that starts after [pre]. *)
Definition digitsFollow (lit reference pre digits post : string) : Prop :=
  reference = (pre +:+ lit +:+ digits +:+ post)%string
  ∧ digits ≠ EmptyString ∧ allDigits digits = true
  ∧ startsWithDigit post = false.

(** Modelled from the spec: [digits] is the maximal run of digits at the
    first place of [reference] where a digit directly follows [lit]. *)
Definition firstDigitsAfter (lit reference digits : string) : Prop :=
  ∃ pre post,
    digitsFollow lit reference pre digits post
    ∧ ∀ pre' rest', reference = (pre' +:+ lit +:+ rest')%string →
                    String.length pre' < String.length pre →
                    startsWithDigit rest' = false.

(** Modelled from the spec: no digit directly follows any occurrence of
    [lit] in [reference]. *)
Definition noDigitsAfter (lit reference : string) : Prop :=
  ∀ pre rest, reference = (pre +:+ lit +:+ rest)%string →
              startsWithDigit rest = false.

End FilterRegistry.

(** ** Result Cache and Matching Orchestrator *)

Module Orchestrator.
Import FilterRegistry.

Section cache.

Variable Timestamp : Type.
Variable ts_leb : Timestamp → Timestamp → bool.

(** Modelled from the spec: the [ReconciliationSummary] record of the
    data model, owned by the Result Cache of the backend. *)
Record ReconciliationSummary := {
  filterId : option string;
  filterName : option string;
  sideACount : nat;
  sideBCount : nat;
  matchCount : nat;
  onlyACount : nat;
  onlyBCount : nat;
  computedAt : Timestamp;
}.

(** Modelled from the spec: what the states RESOLVE_FILTER to RECONCILE of
    the orchestrator deliver for a filter identity, the filter name and
    the five counts. *)
Record Reconciliation := {
  rc_filterName : option string;
  rc_sideA : nat;
  rc_sideB : nat;
  rc_match : nat;
  rc_onlyA : nat;
  rc_onlyB : nat;
}.

(** Modelled from the spec: [put] of the Result Cache (the Python backend's
    [results.db] writer, not among the sources): an append-only log. *)
Definition put (cache : list ReconciliationSummary) (summary : ReconciliationSummary)
  : list ReconciliationSummary :=
  cache ++ [summary].

(** Modelled from the spec: [getLatest] of the Result Cache as the
    orchestrator of the Python backend consults it (not among the sources):
    the most recent row of the identity by [computedAt], the last written
    one among equal timestamps. *)
Definition getLatest (cache : list ReconciliationSummary) (fid : option string)
  : option ReconciliationSummary :=
  foldl (λ best row,
           if bool_decide (filterId row = fid) then
             match best with
             | None => Some row
             | Some b => if ts_leb (computedAt b) (computedAt row) then Some row else Some b
             end
           else best)
        None cache.

(** The CRM pull and the reconciliation of one run, an error kind or the
    counts; it stays the same as long as no [upsertFilter] intervenes. *)
Variable reconcileFresh : option string → ErrorKind + Reconciliation.

(** Modelled from the spec: [runMatching] of the Matching Orchestrator
    ([filtered_matching.py] and [matching.py] of the backend, not among the
    sources). A cache hit is used when [forceRefresh] is not requested and
    a summary exists for the identity; otherwise the summary is computed
    and put into the cache. The result is the new cache, the summary and
    the [fromCache] flag. *)
Definition runMatching (cache : list ReconciliationSummary) (now : Timestamp)
    (fid : option string) (forceRefresh : bool)
  : ErrorKind + (list ReconciliationSummary * ReconciliationSummary * bool) :=
  match (if forceRefresh then None else getLatest cache fid) with
  | Some summary => inr (cache, summary, true)
  | None =>
      match reconcileFresh fid with
      | inl e => inl e
      | inr rc =>
          let summary :=
            {| filterId := fid;
               filterName := rc_filterName rc;
               sideACount := rc_sideA rc;
               sideBCount := rc_sideB rc;
               matchCount := rc_match rc;
               onlyACount := rc_onlyA rc;
               onlyBCount := rc_onlyB rc;
               computedAt := now |} in
          inr (put cache summary, summary, false)
      end
  end.

End cache.

Arguments filterId {Timestamp} _.
Arguments computedAt {Timestamp} _.
Arguments put {Timestamp} _ _.
Arguments getLatest {Timestamp} _ _ _.
Arguments runMatching {Timestamp} _ _ _ _ _ _.

End Orchestrator.

(** ** More of the pages *)

Definition COMMA : N := 0x2C.
Definition QUOTE : N := 0x22.
Definition DOT : N := 0x2E.

(** [parts.join(sep)] *)
Fixpoint joinWith (sep : jsstring) (parts : list jsstring) : jsstring :=
  match parts with
  | [] => []
  | part :: rest =>
      match rest with
      | [] => part
      | _ :: _ => part ++ sep ++ joinWith sep rest
      end
  end.

(** [s.split(sep)] for a separator of one character; [current] is the
    piece being read. *)
Fixpoint splitOnAcc (sep : N) (s : jsstring) (current : jsstring) : list jsstring :=
  match s with
  | [] => [current]
  | c :: rest =>
      if (c =? sep)%N then current :: splitOnAcc sep rest []
      else splitOnAcc sep rest (current ++ [c])
  end.

Definition split (sep : N) (s : jsstring) : list jsstring := splitOnAcc sep s [].

(** The global replace of every double quote by nothing. *)
Definition removeQuotes (s : jsstring) : jsstring := filter (λ c, c ≠ QUOTE) s.

(** The number of occurrences of a character. *)
Definition countChar (c : N) (s : jsstring) : nat := length (filter (λ d, d = c) s).

(** The elements of a list in the order of their first occurrence. *)
Fixpoint firstOccurrences (l : list jsstring) : list jsstring :=
  match l with
  | [] => []
  | x :: rest => x :: filter (λ y, y ≠ x) (firstOccurrences rest)
  end.

(** The text [copy] writes to the clipboard:
    [getOriginalList(keys).join("\n")], an [undefined] entry joined as the
    empty string. *)
Definition copyText (toLowerCase : jsstring → jsstring) (textA textB : jsstring)
    (options : NormalizeOptions) (keys : list jsstring) : jsstring :=
  joinWith [LF] (default [] <$> getOriginalList toLowerCase textA textB options keys).

(** The representative [getOriginalList] picks for a key: the first
    original of side A, else the first of side B, else the key. *)
Definition representative (toLowerCase : jsstring → jsstring)
    (linesA linesB : list jsstring) (options : NormalizeOptions) (k : jsstring)
  : option jsstring :=
  match JSMap.get (normalizedToOriginals (toUniqueSet toLowerCase linesA options)) k with
  | Some originals => head originals
  | None =>
      match JSMap.get (normalizedToOriginals (toUniqueSet toLowerCase linesB options)) k with
      | Some originals => head originals
      | None => Some k
      end
  end.

(** ** The network upload page: the CSV file and the data submitted *)

(** The [headers] and [rows] that [handleFileUpload] stores for the text of
    a file; [None] when [lines.length > 0] fails. *)
Definition handleFileUpload (text : jsstring)
  : option (list jsstring * list (list jsstring)) :=
  let lines := split LF text in
  match lines with
  | [] => None
  | first :: others =>
      let headers :=
        (λ header, removeQuotes (String_trim header)) <$> split COMMA first in
      let rows :=
        (λ line, String_trim <$> split COMMA line)
          <$> filter (λ line, String_trim line ≠ []) others in
      Some (headers, rows)
  end.

(** [l.indexOf(h)] counted from [i]; -1 when [h] is absent. *)
Fixpoint indexOfFrom (i : Z) (l : list jsstring) (h : jsstring) : Z :=
  match l with
  | [] => (-1)%Z
  | x :: rest => if decide (x = h) then i else indexOfFrom (i + 1)%Z rest h
  end.

Definition indexOf (l : list jsstring) (h : jsstring) : Z := indexOfFrom 0%Z l h.

(** [row[i] || ''] *)
Definition cellAt (row : list jsstring) (i : Z) : jsstring :=
  if (i <? 0)%Z then [] else default [] (row !! Z.to_nat i).

Record Contact := {
  company : jsstring;
  email : jsstring;
}.

(** [!header] for what [find] returned: [undefined], here [None], or the
    empty string. *)
Definition headerMissing (header : option jsstring) : bool :=
  match header with
  | None => true
  | Some h => bool_decide (h = [])
  end.

(** The [data] the submit handler builds once both mapped headers are
    there. *)
Definition processedRows (headers : list jsstring) (rows : list (list jsstring))
    (companyHeader emailHeader : jsstring) : list Contact :=
  let companyIndex := indexOf headers companyHeader in
  let emailIndex := indexOf headers emailHeader in
  filter (λ item, company item ≠ [] ∨ email item ≠ [])
    ((λ row,
        {| company := String_trim (removeQuotes (cellAt row companyIndex));
           email := String_trim (removeQuotes (cellAt row emailIndex)) |})
       <$> rows).

(** The [data] of [processedData] in the submit handler, for the two
    headers [find] returned from the mapping; [None] when the handler
    throws 'Required headers not found' and sends nothing. *)
Definition processedData (headers : list jsstring) (rows : list (list jsstring))
    (companyHeader emailHeader : option jsstring) : option (list Contact) :=
  if headerMissing companyHeader || headerMissing emailHeader then None
  else
    match companyHeader, emailHeader with
    | Some company, Some email => Some (processedRows headers rows company email)
    | _, _ => None
    end.

(** ** app/approach/page.tsx: [formatNumber] *)

(** [\d] *)
Definition isDigitUnit (c : N) : bool := (0x30 <=? c)%N && (c <=? 0x39)%N.

(** [\w] *)
Definition isWordUnit (c : N) : bool :=
  isDigitUnit c || ((0x41 <=? c)%N && (c <=? 0x5A)%N)
  || ((0x61 <=? c)%N && (c <=? 0x7A)%N) || (c =? 0x5F)%N.

(** The length of the run of digits a string starts with. *)
Fixpoint digitRun (s : jsstring) : nat :=
  match s with
  | [] => 0
  | c :: rest => if isDigitUnit c then S (digitRun rest) else 0
  end.

(** Whether the pattern [\B(?=(\d{3})+(?!\d))] matches between the
    character [prev] and the text [rest]: no word boundary there, and the
    digits that follow count a positive multiple of three. *)
Definition thousandsGap (prev : option N) (rest : jsstring) : bool :=
  let before := match prev with Some c => isWordUnit c | None => false end in
  let after := match rest with c :: _ => isWordUnit c | [] => false end in
  eqb before after && (0 <? digitRun rest) && (digitRun rest mod 3 =? 0).

(** The global replace of every match of the pattern by a dot. *)
Fixpoint insertDots (prev : option N) (s : jsstring) : jsstring :=
  match s with
  | [] => []
  | c :: rest =>
      (if thousandsGap prev s then [DOT] else []) ++ c :: insertDots (Some c) rest
  end.

Fixpoint digitsOfUint (d : Decimal.uint) : jsstring :=
  match d with
  | Decimal.Nil => []
  | Decimal.D0 d => 0x30%N :: digitsOfUint d
  | Decimal.D1 d => 0x31%N :: digitsOfUint d
  | Decimal.D2 d => 0x32%N :: digitsOfUint d
  | Decimal.D3 d => 0x33%N :: digitsOfUint d
  | Decimal.D4 d => 0x34%N :: digitsOfUint d
  | Decimal.D5 d => 0x35%N :: digitsOfUint d
  | Decimal.D6 d => 0x36%N :: digitsOfUint d
  | Decimal.D7 d => 0x37%N :: digitsOfUint d
  | Decimal.D8 d => 0x38%N :: digitsOfUint d
  | Decimal.D9 d => 0x39%N :: digitsOfUint d
  end.

(** [num.toString()] of a count: a non-negative integer, written in decimal
    (as JavaScript does below 10^21). *)
Definition Number_toString (num : N) : jsstring := digitsOfUint (N.to_uint num).

Definition formatNumber (num : N) : jsstring :=
  insertDots None (Number_toString num).

(** ** app/api/filters/route.ts, [GET]: the list of filters *)

Section filters.

(** The values of the timestamp columns, JSON [null] among them, with the
    order SQLite sorts them by. *)
Variable Timestamp : Type.
Variable ts_leb : Timestamp → Timestamp → bool.
Variable ts_null : Timestamp.

(** A row of [user_filters] as the query selects it, and an entry of the
    response. *)
Record UserFilter := {
  uf_filter_id : option jsstring;
  uf_filter_name : jsstring;
  uf_filter_url : option jsstring;
  uf_organizations_count : option Z;
  uf_created_at : Timestamp;
  uf_last_used : Timestamp;
}.

(** One step of [ORDER BY created_at DESC]: [row] goes before the first
    row that is not newer. *)
Fixpoint insertByCreatedAt (row : UserFilter) (sorted : list UserFilter)
  : list UserFilter :=
  match sorted with
  | [] => [row]
  | r :: rest =>
      if ts_leb (uf_created_at r) (uf_created_at row) then row :: sorted
      else r :: insertByCreatedAt row rest
  end.

(** [ORDER BY created_at DESC]; rows of equal [created_at] keep the order
    of the table (SQL leaves that order open). *)
Definition orderByCreatedAtDesc (rows : list UserFilter) : list UserFilter :=
  foldr insertByCreatedAt [] rows.

(** [r1] may be listed before [r2]: it is at least as new. *)
Definition notOlder (r1 r2 : UserFilter) : Prop :=
  ts_leb (uf_created_at r2) (uf_created_at r1) = true.

(** The "Original Data" option the handler puts first. *)
Definition originalData : UserFilter :=
  {| uf_filter_id := None;
     uf_filter_name := js "Original Data";
     uf_filter_url := None;
     uf_organizations_count := None;
     uf_created_at := ts_null;
     uf_last_used := ts_null |}.

(** The [filters] of the response for the table [rows]. *)
Definition listFilters (rows : list UserFilter) : list UserFilter :=
  originalData :: orderByCreatedAtDesc rows.

End filters.

Arguments uf_filter_id {Timestamp} _.
Arguments uf_filter_name {Timestamp} _.
Arguments uf_created_at {Timestamp} _.
Arguments insertByCreatedAt {Timestamp} _ _ _.
Arguments orderByCreatedAtDesc {Timestamp} _ _.
Arguments originalData {Timestamp} _.
Arguments listFilters {Timestamp} _ _ _.
Arguments notOlder {Timestamp} _ _ _.

(** * Properties *)

(** ** [Set] and [Map] *)

Section set_facts.
Context {T : Type} `{EqDecision T}.
Implicit Types (s src acc : list T) (x : T).

Lemma has_true s x : JSSet.has s x = true ↔ x ∈ s.
Proof. unfold JSSet.has. rewrite bool_decide_eq_true. done. Qed.

Lemma has_false s x : JSSet.has s x = false ↔ x ∉ s.
Proof. unfold JSSet.has. rewrite bool_decide_eq_false. done. Qed.

Lemma elem_of_add s x y : y ∈ JSSet.add s x ↔ y ∈ s ∨ y = x.
Proof.
  unfold JSSet.add. destruct (JSSet.has s x) eqn:E.
  - apply has_true in E. split; [tauto | intros [? | ->]; done].
  - rewrite elem_of_app, list_elem_of_singleton. done.
Qed.

Lemma NoDup_add s x : NoDup s → NoDup (JSSet.add s x).
Proof.
  intros Hs. unfold JSSet.add. destruct (JSSet.has s x) eqn:E; [done |].
  apply has_false in E. apply NoDup_app. split; [done |]. split.
  - intros y Hy ->%list_elem_of_singleton. done.
  - apply NoDup_singleton.
Qed.

Lemma collect_snoc keep src x acc :
  collect keep (src ++ [x]) acc
  = if keep x then JSSet.add (collect keep src acc) x else collect keep src acc.
Proof. unfold collect. rewrite foldl_app. done. Qed.

Lemma elem_of_collect keep src acc y :
  y ∈ collect keep src acc ↔ y ∈ acc ∨ (y ∈ src ∧ keep y = true).
Proof.
  induction src as [| x src IH] using rev_ind.
  - cbn. split; [tauto | intros [? | [[]%elem_of_nil _]]; done].
  - rewrite collect_snoc, elem_of_app, list_elem_of_singleton.
    destruct (keep x) eqn:E.
    + rewrite elem_of_add, IH. intuition (subst; auto).
    + rewrite IH. intuition (subst; auto; congruence).
Qed.

Lemma NoDup_collect keep src acc : NoDup acc → NoDup (collect keep src acc).
Proof.
  intros Hacc. induction src as [| x src IH] using rev_ind; [done |].
  rewrite collect_snoc. destruct (keep x); [by apply NoDup_add | done].
Qed.

(** On a source without repetitions the loop is a filter. *)
Lemma collect_filter keep src :
  NoDup src → collect keep src [] = filter (λ x, keep x = true) src.
Proof.
  induction src as [| x src IH] using rev_ind; [done |].
  intros [Hsrc [Hx _]]%NoDup_app.
  rewrite collect_snoc, filter_app, IH by done.
  rewrite filter_cons, filter_nil. destruct (keep x) eqn:E.
  - rewrite decide_True by done. unfold JSSet.add.
    destruct (JSSet.has _ x) eqn:E'; [| done].
    apply has_true, list_elem_of_filter in E' as [_ E'].
    exfalso. apply (Hx x E'). by apply list_elem_of_singleton.
  - rewrite decide_False by done. by rewrite app_nil_r.
Qed.

Lemma elem_of_setIntersection (a b : list T) x :
  x ∈ setIntersection a b ↔ x ∈ a ∧ x ∈ b.
Proof.
  unfold setIntersection. rewrite elem_of_collect.
  destruct (JSSet.size a <=? JSSet.size b); rewrite has_true;
    unfold JSSet.newSet; rewrite elem_of_nil; tauto.
Qed.

Lemma elem_of_setDifference (a b : list T) x :
  x ∈ setDifference a b ↔ x ∈ a ∧ x ∉ b.
Proof.
  unfold setDifference. rewrite elem_of_collect, negb_true_iff, has_false.
  unfold JSSet.newSet. rewrite elem_of_nil. tauto.
Qed.

Lemma NoDup_setIntersection (a b : list T) : NoDup (setIntersection a b).
Proof. apply NoDup_collect, NoDup_nil_2. Qed.

Lemma NoDup_setDifference (a b : list T) : NoDup (setDifference a b).
Proof. apply NoDup_collect, NoDup_nil_2. Qed.

Lemma setDifference_filter (a b : list T) :
  NoDup a → setDifference a b = filter (λ x, x ∉ b) a.
Proof.
  intros Ha. unfold setDifference, JSSet.newSet. rewrite collect_filter by done.
  apply list_filter_iff. intros x. by rewrite negb_true_iff, has_false.
Qed.

Lemma setIntersection_comm_perm (a b : list T) :
  setIntersection a b ≡ₚ setIntersection b a.
Proof.
  apply NoDup_Permutation; [apply NoDup_setIntersection .. |].
  intros x. rewrite !elem_of_setIntersection. tauto.
Qed.

(** The matches and the only-A keys split the keys of A. *)
Lemma setIntersection_setDifference_perm (a b : list T) :
  NoDup a → setIntersection a b ++ setDifference a b ≡ₚ a.
Proof.
  intros Ha. apply NoDup_Permutation; [| done |].
  - apply NoDup_app. split; [apply NoDup_setIntersection |].
    split; [| apply NoDup_setDifference].
    intros x. rewrite elem_of_setIntersection, elem_of_setDifference. tauto.
  - intros x.
    rewrite elem_of_app, elem_of_setIntersection, elem_of_setDifference.
    destruct (decide (x ∈ b)); tauto.
Qed.

End set_facts.

(** The two intersections hold the same keys but list them in the order of
    the side that was iterated. *)
Example setIntersection_insertion_order :
  setIntersection [1; 2] [2; 1] = [1; 2] ∧ setIntersection [2; 1] [1; 2] = [2; 1].
Proof. split; reflexivity. Qed.

Section keyset_facts.
Context `{Countable T}.

Lemma elem_of_keySet (s : list T) x : x ∈ keySet s ↔ x ∈ s.
Proof. unfold keySet. apply elem_of_list_to_set. Qed.

Lemma size_keySet (s : list T) : NoDup s → size (keySet s) = JSSet.size s.
Proof. intros Hs. unfold keySet, JSSet.size. by apply size_list_to_set. Qed.

Lemma keySet_setIntersection (a b : list T) :
  keySet (setIntersection a b) = keySet a ∩ keySet b.
Proof.
  apply set_eq. intros x.
  rewrite elem_of_intersection, !elem_of_keySet. apply elem_of_setIntersection.
Qed.

Lemma keySet_setDifference (a b : list T) :
  keySet (setDifference a b) = keySet a ∖ keySet b.
Proof.
  apply set_eq. intros x.
  rewrite elem_of_difference, !elem_of_keySet. apply elem_of_setDifference.
Qed.

End keyset_facts.

Section map_facts.
Context {K V : Type} `{EqDecision K}.
Implicit Types (m : list (K * V)) (k : K) (v : V).

Lemma get_set_eq m k v : JSMap.get (JSMap.set m k v) k = Some v.
Proof.
  induction m as [| [k' v'] m IH]; cbn.
  - by rewrite decide_True.
  - destruct (decide (k = k')) as [-> | Hne]; cbn.
    + by rewrite decide_True.
    + by rewrite decide_False.
Qed.

Lemma get_set_ne m k k' v :
  k ≠ k' → JSMap.get (JSMap.set m k v) k' = JSMap.get m k'.
Proof.
  intros Hne. induction m as [| [k0 v0] m IH]; cbn.
  - by rewrite decide_False.
  - destruct (decide (k = k0)) as [-> | Hne0]; cbn.
    + by rewrite !decide_False by done.
    + by rewrite IH.
Qed.

Lemma keys_set m k v :
  JSMap.keys (JSMap.set m k v)
  = match JSMap.get m k with
    | Some _ => JSMap.keys m
    | None => JSMap.keys m ++ [k]
    end.
Proof.
  unfold JSMap.keys. induction m as [| [k' v'] m IH]; cbn; [done |].
  destruct (decide (k = k')) as [-> | Hne]; cbn; [done |].
  rewrite IH. by destruct (JSMap.get m k).
Qed.

Lemma get_Some_keys m k v : JSMap.get m k = Some v → k ∈ JSMap.keys m.
Proof.
  unfold JSMap.keys. induction m as [| [k' v'] m IH]; cbn; [done |].
  destruct (decide (k = k')) as [-> | Hne]; intros Hg.
  - apply elem_of_cons. by left.
  - apply elem_of_cons. right. by apply IH.
Qed.

End map_facts.

Section originals_facts.
Context {K A : Type} `{EqDecision K}.
Implicit Types (m : list (K * list A)) (k : K).

Lemma originalsCount_set_new m k (v : list A) :
  JSMap.get m k = None →
  originalsCount (JSMap.set m k v) = originalsCount m + length v.
Proof.
  unfold originalsCount. induction m as [| [k' v'] m IH]; cbn; [lia |].
  destruct (decide (k = k')) as [-> | Hne]; [done |].
  intros Hg. cbn. rewrite IH by done. lia.
Qed.

Lemma originalsCount_set_old m k (v w : list A) :
  JSMap.get m k = Some w →
  originalsCount (JSMap.set m k v) + length w = originalsCount m + length v.
Proof.
  unfold originalsCount. induction m as [| [k' v'] m IH]; cbn; [done |].
  destruct (decide (k = k')) as [-> | Hne]; cbn.
  - intros [= ->]. lia.
  - intros Hg. specialize (IH Hg). lia.
Qed.

End originals_facts.

Lemma head_filter_list_find {A} (P : A → Prop) `{∀ x, Decision (P x)} (l : list A) :
  head (filter P l) = snd <$> list_find P l.
Proof.
  induction l as [| x l IH]; [done |].
  rewrite filter_cons. cbn. destruct (decide (P x)); [done |].
  rewrite IH. by destruct (list_find P l) as [[i y] |].
Qed.

(** ** [toUniqueSet] *)

Section toUniqueSet_facts.
Variable toLowerCase : jsstring → jsstring.
Variable options : NormalizeOptions.

Local Abbreviation normalize := (λ raw, normalizeLine toLowerCase raw options).
Local Abbreviation loop := (foldl (loopBody toLowerCase options) initialState).
Local Abbreviation LoopInv := (LoopInv toLowerCase options).
Local Abbreviation inv_nodup := (inv_nodup toLowerCase options).
Local Abbreviation inv_elem := (inv_elem toLowerCase options).

Lemma loopBody_blank st raw :
  normalize raw = [] → loopBody toLowerCase options st raw = st.
Proof. intros Hn. unfold loopBody. by rewrite Hn. Qed.

Lemma loopBody_accept st raw :
  normalize raw ≠ [] →
  loopBody toLowerCase options st raw
  = {| ls_set := JSSet.add (ls_set st) (normalize raw);
       ls_map := JSMap.set (ls_map st) (normalize raw)
                   (default [] (JSMap.get (ls_map st) (normalize raw)) ++ [raw]);
       ls_total := ls_total st + 1 |}.
Proof.
  intros Hn. unfold loopBody.
  destruct (normalize raw) as [| c n] eqn:E; [done |]. cbn [length Nat.eqb].
  f_equal. unfold JSSet.add. by destruct (JSSet.has (ls_set st) (c :: n)).
Qed.

Lemma occurrences_snoc lines raw k :
  occurrences toLowerCase (lines ++ [raw]) options k
  = occurrences toLowerCase lines options k
    ++ (if decide (normalize raw = k) then [raw] else []).
Proof. unfold occurrences. by rewrite filter_app, filter_cons, filter_nil. Qed.

Lemma accepted_snoc lines raw :
  accepted toLowerCase (lines ++ [raw]) options
  = accepted toLowerCase lines options
    ++ (if decide (normalize raw ≠ []) then [raw] else []).
Proof. unfold accepted. by rewrite filter_app, filter_cons, filter_nil. Qed.

Lemma occurrences_nil lines k :
  (∀ raw, raw ∈ lines → normalize raw ≠ k) →
  occurrences toLowerCase lines options k = [].
Proof.
  intros Hno. unfold occurrences. induction lines as [| raw lines IH]; [done |].
  rewrite filter_cons, decide_False.
  - apply IH. intros raw' Hin. apply Hno. by apply elem_of_cons; right.
  - apply Hno. by apply elem_of_cons; left.
Qed.

Lemma loop_inv_blank lines st raw :
  normalize raw = [] → LoopInv lines st → LoopInv (lines ++ [raw]) st.
Proof.
  intros Hn [Hnd Hel Hk Hg Ht Hc]. split; try done.
  - intros k. rewrite Hel. split; intros [Hk0 (raw' & Hin & Hr)]; split; try done.
    + exists raw'. split; [| done]. apply elem_of_app. by left.
    + exists raw'. split; [| done].
      apply elem_of_app in Hin as [Hin | ->%list_elem_of_singleton]; [done |].
      congruence.
  - intros k. rewrite Hg, occurrences_snoc. destruct (decide (k ∈ ls_set st)) as [Hin |]; [| done].
    apply Hel in Hin as [Hk0 _]. rewrite decide_False by congruence.
    by rewrite app_nil_r.
  - rewrite Ht, accepted_snoc, decide_False by (intros Hne; done).
    by rewrite app_nil_r.
Qed.

Lemma loop_inv_accept lines st raw :
  normalize raw ≠ [] → LoopInv lines st →
  LoopInv (lines ++ [raw])
    {| ls_set := JSSet.add (ls_set st) (normalize raw);
       ls_map := JSMap.set (ls_map st) (normalize raw)
                   (default [] (JSMap.get (ls_map st) (normalize raw)) ++ [raw]);
       ls_total := ls_total st + 1 |}.
Proof.
  intros Hn [Hnd Hel Hk Hg Ht Hc]. set (n := normalize raw) in *.
  split; cbn [ls_set ls_map ls_total].
  - by apply NoDup_add.
  - intros k. rewrite elem_of_add, Hel. split.
    + intros [[Hk0 (raw' & Hin & Hr)] | ->].
      * split; [done |]. exists raw'. split; [| done]. apply elem_of_app. by left.
      * split; [done |]. exists raw. split; [| done].
        apply elem_of_app. right. by apply list_elem_of_singleton.
    + intros [Hk0 (raw' & Hin & Hr)].
      apply elem_of_app in Hin as [Hin | ->%list_elem_of_singleton].
      * left. split; [done |]. by exists raw'.
      * right. done.
  - rewrite keys_set, Hg, Hk. unfold JSSet.add, JSSet.has.
    destruct (decide (n ∈ ls_set st)).
    + by rewrite bool_decide_eq_true_2.
    + by rewrite bool_decide_eq_false_2.
  - intros k. rewrite occurrences_snoc. fold n.
    destruct (decide (n = k)) as [<- | Hne].
    + rewrite get_set_eq, decide_True by (apply elem_of_add; by right).
      f_equal. f_equal. rewrite Hg. destruct (decide (n ∈ ls_set st)) as [| Hnin]; [done |].
      cbn. symmetry. apply occurrences_nil. intros raw' Hin Hr.
      apply Hnin, Hel. split; [done |]. by exists raw'.
    + rewrite get_set_ne, Hg, app_nil_r by done.
      destruct (decide (k ∈ ls_set st)) as [Hin | Hnin].
      * rewrite decide_True; [done |]. apply elem_of_add. by left.
      * rewrite decide_False; [done |]. rewrite elem_of_add. intros [? | ->]; done.
  - rewrite Ht, accepted_snoc. fold n. rewrite decide_True by done.
    rewrite length_app. done.
  - destruct (JSMap.get (ls_map st) n) as [w |] eqn:E; cbn.
    + pose proof (originalsCount_set_old (ls_map st) n (w ++ [raw]) w E) as Hs.
      rewrite length_app in Hs. cbn in Hs. lia.
    + rewrite originalsCount_set_new by done. cbn. lia.
Qed.

Lemma loop_snoc lines raw :
  loop (lines ++ [raw]) = loopBody toLowerCase options (loop lines) raw.
Proof. by rewrite foldl_app. Qed.

Lemma loop_inv lines : LoopInv lines (loop lines).
Proof.
  induction lines as [| raw lines IH] using rev_ind.
  - split; cbn; try done.
    + constructor.
    + intros k. split; [by intros []%elem_of_nil |].
      by intros [_ (raw & []%elem_of_nil & _)].
  - rewrite loop_snoc. destruct (decide (normalize raw = [])) as [Hn | Hn].
    + rewrite loopBody_blank by done. by apply loop_inv_blank.
    + rewrite loopBody_accept by done. by apply loop_inv_accept.
Qed.

Lemma NoDup_toUniqueSet lines : NoDup (set (toUniqueSet toLowerCase lines options)).
Proof. apply (inv_nodup _ _ (loop_inv lines)). Qed.

Lemma keySet_toUniqueSet lines :
  keySet (set (toUniqueSet toLowerCase lines options))
  = keySet ((λ raw, normalize raw) <$> accepted toLowerCase lines options).
Proof.
  apply set_eq. intros k. rewrite !elem_of_keySet. cbn.
  rewrite (inv_elem _ _ (loop_inv lines)), list_elem_of_fmap.
  unfold accepted. split.
  - intros [Hk (raw & Hin & Hr)]. exists raw. split; [done |].
    apply list_elem_of_filter. split; [congruence | done].
  - intros (raw & -> & [Hne Hin]%list_elem_of_filter). split; [done |]. by exists raw.
Qed.

End toUniqueSet_facts.

(** ** The name set built by [toUniqueSet] *)

(** C5. For every sequence of lines and every options value the result of
    [toUniqueSet] has: [uniqueCount] equal to the number of distinct
    normalized keys, which is the number of entries of the originals map,
    whose keys are the keys of the set; [totalCount >= uniqueCount];
    [totalCount] equal to the number of input lines whose normalization is
    not empty, duplicates counted; and for every key present a non-empty
    originals list that is a subsequence of the input (first-seen order
    kept) and holds only lines that normalize to the key, which is not the
    empty string. *)
Theorem toUniqueSet_invariants (toLowerCase : jsstring → jsstring)
    (lines : list jsstring) (options : NormalizeOptions) :
  let r := toUniqueSet toLowerCase lines options in
  let normalized :=
    (λ raw, normalizeLine toLowerCase raw options)
      <$> accepted toLowerCase lines options in
  uniqueCount r = size (keySet normalized)
  ∧ uniqueCount r = length (normalizedToOriginals r)
  ∧ JSMap.keys (normalizedToOriginals r) = set r
  ∧ NoDup (set r)
  ∧ uniqueCount r ≤ totalCount r
  ∧ totalCount r = length (accepted toLowerCase lines options)
  ∧ ∀ k originals,
      JSMap.get (normalizedToOriginals r) k = Some originals →
      k ≠ [] ∧ originals ≠ [] ∧ originals `sublist_of` lines
      ∧ Forall (λ raw, normalizeLine toLowerCase raw options = k) originals.
Proof.
  intros r normalized.
  pose proof (loop_inv toLowerCase options lines) as [Hnd Hel Hk Hg Ht Hc].
  assert (Hks : keySet (set r) = keySet normalized)
    by apply keySet_toUniqueSet.
  assert (Hlen : length (set r) ≤ length normalized).
  { apply submseteq_length, NoDup_submseteq; [done |].
    intros k Hin. apply elem_of_keySet. rewrite <- Hks. by apply elem_of_keySet. }
  repeat split.
  - rewrite <- Hks. symmetry. by apply size_keySet.
  - cbn. unfold JSSet.size. rewrite <- Hk. unfold JSMap.keys. by rewrite length_fmap.
  - done.
  - done.
  - cbn. unfold JSSet.size. rewrite Ht. subst normalized.
    by rewrite length_fmap in Hlen.
  - done.
  - cbn in H. rewrite Hg in H. destruct (decide (k ∈ _)) as [Hin |]; [| done].
    by apply Hel in Hin as [? _].
  - cbn in H. rewrite Hg in H. destruct (decide (k ∈ _)) as [Hin |]; [| done].
    injection H as <-. apply Hel in Hin as [_ (raw & Hin & Hr)].
    intros Hnil. assert (Hraw : raw ∈ occurrences toLowerCase lines options k).
    { apply list_elem_of_filter. done. }
    rewrite Hnil in Hraw. by apply elem_of_nil in Hraw.
  - cbn in H. rewrite Hg in H. destruct (decide (k ∈ _)); [| done].
    injection H as <-. apply sublist_filter.
  - cbn in H. rewrite Hg in H. destruct (decide (k ∈ _)); [| done].
    injection H as <-. apply Forall_forall. by intros raw [? _]%list_elem_of_filter.
Qed.

Lemma toUniqueSet_invariants_witness :
  let lines := [js "Acme Inc"; js " "; js "acme inc"; js "Globex"] in
  let options := {| trim := true; caseInsensitive := true |} in
  let r := toUniqueSet asciiToLowerCase lines options in
  JSMap.get (normalizedToOriginals r) (js "acme inc")
  = Some [js "Acme Inc"; js "acme inc"]
  ∧ totalCount r = 3 ∧ uniqueCount r = 2
  ∧ [js "Acme Inc"; js "acme inc"] `sublist_of` lines.
Proof.
  intros lines options r.
  split; [reflexivity |]. split; [reflexivity |]. split; [reflexivity |].
  destruct (toUniqueSet_invariants asciiToLowerCase lines options)
    as (_ & _ & _ & _ & _ & _ & Horiginals).
  destruct (Horiginals (js "acme inc") [js "Acme Inc"; js "acme inc"] eq_refl)
    as (_ & _ & Hsub & _).
  exact Hsub.
Defined.

(** C10. For every sequence of lines and every options value, the
    originals list recorded for a key [k] is exactly the list of the raw
    input lines whose normalization is [k], in input order; every accepted
    line is recorded under its key; the first element of the list is the
    first raw line of the input that normalizes to [k]; and the lengths of
    all the originals lists add up to [totalCount]. *)
Theorem toUniqueSet_originals (toLowerCase : jsstring → jsstring)
    (lines : list jsstring) (options : NormalizeOptions) :
  let r := toUniqueSet toLowerCase lines options in
  (∀ k originals,
     JSMap.get (normalizedToOriginals r) k = Some originals →
     originals = occurrences toLowerCase lines options k
     ∧ head originals
       = snd <$> list_find (λ raw, normalizeLine toLowerCase raw options = k) lines
     ∧ is_Some (head originals))
  ∧ (∀ raw, raw ∈ lines → normalizeLine toLowerCase raw options ≠ [] →
       ∃ originals,
         JSMap.get (normalizedToOriginals r) (normalizeLine toLowerCase raw options)
         = Some originals ∧ raw ∈ originals)
  ∧ NoDup (JSMap.keys (normalizedToOriginals r))
  ∧ originalsCount (normalizedToOriginals r) = totalCount r.
Proof.
  intros r.
  pose proof (loop_inv toLowerCase options lines) as [Hnd Hel Hk Hg Ht Hc].
  split; [| split; [| split]].
  - intros k originals Hget. cbn in Hget. rewrite Hg in Hget.
    destruct (decide (k ∈ _)) as [Hin |]; [| done]. injection Hget as <-.
    split; [done |]. split; [apply head_filter_list_find |].
    apply Hel in Hin as [_ (raw & Hin & Hr)].
    assert (Hraw : raw ∈ occurrences toLowerCase lines options k)
      by (by apply list_elem_of_filter).
    destruct (occurrences toLowerCase lines options k); [by apply elem_of_nil in Hraw |].
    by eexists.
  - intros raw Hin Hne. eexists. cbn. rewrite Hg. rewrite decide_True.
    + split; [done |]. by apply list_elem_of_filter.
    + apply Hel. split; [done |]. by exists raw.
  - rewrite <- Hk in Hnd. exact Hnd.
  - done.
Qed.

Lemma toUniqueSet_originals_witness :
  let lines := [js "Acme Inc"; js " "; js "acme inc"; js "Globex"] in
  let options := {| trim := true; caseInsensitive := true |} in
  let r := toUniqueSet asciiToLowerCase lines options in
  JSMap.get (normalizedToOriginals r) (js "acme inc")
  = Some [js "Acme Inc"; js "acme inc"]
  ∧ [js "Acme Inc"; js "acme inc"]
    = occurrences asciiToLowerCase lines options (js "acme inc").
Proof.
  intros lines options r. split; [reflexivity |].
  destruct (toUniqueSet_originals asciiToLowerCase lines options) as [Horiginals _].
  destruct (Horiginals (js "acme inc") [js "Acme Inc"; js "acme inc"] eq_refl)
    as [Heq _].
  exact Heq.
Defined.

(** ** The reconciliation of two name sets *)

(** C1. For every pair of name sets A and B built by [toUniqueSet], with
    [matches = setIntersection A.set B.set], [onlyA = setDifference A.set
    B.set] and [onlyB = setDifference B.set A.set] as the page computes
    them (called [both], [inA] and [inB] below): the keys of [matches] are exactly the keys present on both
    sides, [onlyA] and [onlyB] are the keys of one side absent from the
    other, each is disjoint from [matches], [matches] with [onlyA] gives
    the keys of A, [matches] with [onlyB] gives the keys of B, and
    [|matches| + |onlyA| = A.uniqueCount] (likewise for B). *)
Theorem reconcile_partition (toLowerCase : jsstring → jsstring)
    (linesA linesB : list jsstring) (optionsA optionsB : NormalizeOptions) :
  let a := toUniqueSet toLowerCase linesA optionsA in
  let b := toUniqueSet toLowerCase linesB optionsB in
  let both := setIntersection (set a) (set b) in
  let inA := setDifference (set a) (set b) in
  let inB := setDifference (set b) (set a) in
  keySet both = keySet (set a) ∩ keySet (set b)
  ∧ keySet inA = keySet (set a) ∖ keySet (set b)
  ∧ keySet inB = keySet (set b) ∖ keySet (set a)
  ∧ keySet both ## keySet inA
  ∧ keySet both ## keySet inB
  ∧ keySet both ∪ keySet inA = keySet (set a)
  ∧ keySet both ∪ keySet inB = keySet (set b)
  ∧ JSSet.size both + JSSet.size inA = uniqueCount a
  ∧ JSSet.size both + JSSet.size inB = uniqueCount b
  ∧ (∀ options,
       let r := reconcile toLowerCase linesA linesB options in
       let a := toUniqueSet toLowerCase linesA options in
       let b := toUniqueSet toLowerCase linesB options in
       matches r = setIntersection (set a) (set b)
       ∧ onlyA r = setDifference (set a) (set b)
       ∧ onlyB r = setDifference (set b) (set a)
       ∧ aUnique r = uniqueCount a ∧ bUnique r = uniqueCount b).
Proof.
  intros a b both inA inB.
  assert (Ha : NoDup (set a)) by apply NoDup_toUniqueSet.
  assert (Hb : NoDup (set b)) by apply NoDup_toUniqueSet.
  assert (Hm : keySet both = keySet (set a) ∩ keySet (set b))
    by apply keySet_setIntersection.
  assert (HA : keySet inA = keySet (set a) ∖ keySet (set b))
    by apply keySet_setDifference.
  assert (HB : keySet inB = keySet (set b) ∖ keySet (set a))
    by apply keySet_setDifference.
  split; [done |]. split; [done |]. split; [done |].
  rewrite Hm, HA, HB.
  split. { apply elem_of_disjoint. intros k.
           rewrite elem_of_intersection, elem_of_difference. tauto. }
  split. { apply elem_of_disjoint. intros k.
           rewrite elem_of_intersection, elem_of_difference. tauto. }
  split. { apply set_eq. intros k.
           rewrite elem_of_union, elem_of_intersection, elem_of_difference.
           destruct (decide (k ∈ keySet (set b))); tauto. }
  split. { apply set_eq. intros k.
           rewrite elem_of_union, elem_of_intersection, elem_of_difference.
           destruct (decide (k ∈ keySet (set a))); tauto. }
  split.
  { change (length (setIntersection (set a) (set b))
            + length (setDifference (set a) (set b)) = length (set a)).
    rewrite <- length_app. by rewrite setIntersection_setDifference_perm. }
  split.
  { change (length (setIntersection (set a) (set b))
            + length (setDifference (set b) (set a)) = length (set b)).
    rewrite <- length_app, (setIntersection_comm_perm (set a)).
    by rewrite setIntersection_setDifference_perm. }
  done.
Qed.

(** C2. Reconciliation is symmetric under a swap of the sides: for all key
    sets A and B, [setIntersection A B] and [setIntersection B A] hold the
    same keys and have the same size (each is a rearrangement of the
    other, whichever side was iterated), and for the reconciliation of two
    inputs the only-A set of [reconcile A B] is the only-B set of
    [reconcile B A] and conversely. *)
Theorem reconcile_side_swap :
  (∀ (T : Type) `(Countable T) (A B : list T),
     keySet (setIntersection A B) = keySet (setIntersection B A)
     ∧ setIntersection A B ≡ₚ setIntersection B A
     ∧ JSSet.size (setIntersection A B) = JSSet.size (setIntersection B A))
  ∧ (∀ toLowerCase linesA linesB options,
       let ab := reconcile toLowerCase linesA linesB options in
       let ba := reconcile toLowerCase linesB linesA options in
       keySet (matches ab) = keySet (matches ba)
       ∧ matches ab ≡ₚ matches ba
       ∧ onlyA ab = onlyB ba
       ∧ onlyB ab = onlyA ba).
Proof.
  split.
  - intros T ? ? A B. split; [| split].
    + rewrite !keySet_setIntersection. apply (comm_L (∩)).
    + apply setIntersection_comm_perm.
    + unfold JSSet.size. by rewrite setIntersection_comm_perm.
  - intros toLowerCase linesA linesB options ab ba. split; [| split; [| done]].
    + unfold ab, ba, reconcile, matches.
      rewrite !keySet_setIntersection. apply (comm_L (∩)).
    + apply setIntersection_comm_perm.
Qed.

(** ** The normalizer *)

Lemma startsClean_trimStart s : startsClean (trimStart s).
Proof.
  induction s as [| c s IH]; cbn; [done |].
  destruct (isWhiteSpace c) eqn:E; [done | by cbn].
Qed.

Lemma trimStart_clean s : startsClean s → trimStart s = s.
Proof. destruct s as [| c s]; cbn; [done |]. by intros ->. Qed.

Lemma trimStart_snoc_clean s c :
  isWhiteSpace c = false → trimStart (s ++ [c]) = trimStart s ++ [c].
Proof.
  intros Hc. induction s as [| d s IH]; cbn.
  - by rewrite Hc.
  - by destruct (isWhiteSpace d).
Qed.

Lemma trimEnd_nil : trimEnd [] = [].
Proof. reflexivity. Qed.

Lemma trimEnd_cons_clean c s :
  isWhiteSpace c = false → trimEnd (c :: s) = c :: trimEnd s.
Proof.
  intros Hc. unfold trimEnd.
  by rewrite reverse_cons, trimStart_snoc_clean, reverse_app, reverse_singleton.
Qed.

Lemma startsClean_trimEnd s : startsClean s → startsClean (trimEnd s).
Proof.
  destruct s as [| c s]; [done |]. intros Hc.
  rewrite trimEnd_cons_clean by exact Hc. exact Hc.
Qed.

Lemma trimEnd_idem s : trimEnd (trimEnd s) = trimEnd s.
Proof.
  unfold trimEnd. rewrite reverse_involutive.
  by rewrite (trimStart_clean (trimStart _)) by apply startsClean_trimStart.
Qed.

Lemma String_trim_idem s : String_trim (String_trim s) = String_trim s.
Proof.
  unfold String_trim.
  rewrite (trimStart_clean (trimEnd _))
    by apply startsClean_trimEnd, startsClean_trimStart.
  apply trimEnd_idem.
Qed.

Lemma elem_of_trimStart s c : c ∈ trimStart s → c ∈ s.
Proof.
  induction s as [| d s IH]; cbn; [done |].
  destruct (isWhiteSpace d); [| done]. intros Hin. apply elem_of_cons. right. by apply IH.
Qed.

Lemma elem_of_String_trim s c : c ∈ String_trim s → c ∈ s.
Proof.
  unfold String_trim, trimEnd. rewrite elem_of_reverse.
  intros Hin%elem_of_trimStart. rewrite elem_of_reverse in Hin.
  by apply elem_of_trimStart.
Qed.

Lemma trimStart_blank s : isBlank s → trimStart s = [].
Proof.
  induction 1 as [| c s Hc _ IH]; cbn; [done |]. by rewrite Hc.
Qed.

Lemma String_trim_blank s : isBlank s → String_trim s = [].
Proof. intros Hs. unfold String_trim. by rewrite trimStart_blank. Qed.

Lemma trimStart_fmap (f : N → N) s :
  (∀ c, isWhiteSpace (f c) = isWhiteSpace c) →
  trimStart (f <$> s) = f <$> trimStart s.
Proof.
  intros Hf. induction s as [| c s IH]; cbn; [done |].
  rewrite Hf. by destruct (isWhiteSpace c).
Qed.

Lemma String_trim_fmap (f : N → N) s :
  (∀ c, isWhiteSpace (f c) = isWhiteSpace c) →
  String_trim (f <$> s) = f <$> String_trim s.
Proof.
  intros Hf. unfold String_trim, trimEnd.
  by rewrite trimStart_fmap, <- fmap_reverse, trimStart_fmap, fmap_reverse.
Qed.

Lemma NBSP_replaceNbsp s : NBSP ∉ replaceNbsp s.
Proof.
  unfold replaceNbsp. intros (c & Hc & _)%list_elem_of_fmap.
  destruct (c =? NBSP)%N eqn:E; [done |].
  apply N.eqb_neq in E. congruence.
Qed.

Lemma replaceNbsp_id s : NBSP ∉ s → replaceNbsp s = s.
Proof.
  unfold replaceNbsp. induction s as [| c s IH]; [done |].
  intros Hnin. rewrite not_elem_of_cons in Hnin. destruct Hnin as [Hc Hs].
  cbn. rewrite IH by done. destruct (N.eqb_spec c NBSP); [congruence | done].
Qed.

Lemma isBlank_replaceNbsp s : isBlank s → isBlank (replaceNbsp s).
Proof.
  unfold isBlank, replaceNbsp. intros Hs. apply Forall_fmap.
  eapply Forall_impl; [done |]. intros c Hc. cbn.
  by destruct (N.eqb_spec c NBSP).
Qed.

Lemma isAscii_replaceNbsp s : isAscii s → isAscii (replaceNbsp s).
Proof.
  unfold isAscii, replaceNbsp. intros Hs. apply Forall_fmap.
  eapply Forall_impl; [done |]. intros c Hc. cbn.
  by destruct (N.eqb_spec c NBSP).
Qed.

Lemma isAscii_String_trim s : isAscii s → isAscii (String_trim s).
Proof.
  unfold isAscii. rewrite !Forall_forall.
  intros Hs c Hc. by apply Hs, elem_of_String_trim.
Qed.

(** *** The ASCII lower-casing is a lower-casing *)

Lemma isWhiteSpace_letter c : (0x41 ≤ c ≤ 0x7A)%N → isWhiteSpace c = false.
Proof.
  intros Hc. unfold isWhiteSpace.
  repeat (rewrite (proj2 (N.eqb_neq c _)) by lia).
  rewrite (proj2 (N.leb_gt _ c)) by lia. reflexivity.
Qed.

Lemma asciiLowerUnit_spec c :
  ((0x41 ≤ c ≤ 0x5A)%N ∧ asciiLowerUnit c = (c + 0x20)%N)
  ∨ (¬ (0x41 ≤ c ≤ 0x5A)%N ∧ asciiLowerUnit c = c).
Proof.
  unfold asciiLowerUnit.
  destruct (N.leb_spec 0x41 c), (N.leb_spec c 0x5A); cbn; [left | right ..]; lia.
Qed.

Lemma asciiLowerUnit_idem c : asciiLowerUnit (asciiLowerUnit c) = asciiLowerUnit c.
Proof.
  destruct (asciiLowerUnit_spec c) as [[Hc ->] | [Hc ->]].
  - destruct (asciiLowerUnit_spec (c + 0x20)) as [[Hc' _] | [_ ->]]; [lia | done].
  - destruct (asciiLowerUnit_spec c) as [[Hc' _] | [_ ->]]; [lia | done].
Qed.

Lemma isWhiteSpace_asciiLowerUnit c :
  isWhiteSpace (asciiLowerUnit c) = isWhiteSpace c.
Proof.
  destruct (asciiLowerUnit_spec c) as [[Hc ->] | [Hc ->]]; [| done].
  rewrite !isWhiteSpace_letter by lia. done.
Qed.

Lemma asciiToLowerCase_idem s :
  asciiToLowerCase (asciiToLowerCase s) = asciiToLowerCase s.
Proof.
  unfold asciiToLowerCase. rewrite <- list_fmap_compose.
  apply list_fmap_ext. intros _ c _. apply asciiLowerUnit_idem.
Qed.

Lemma asciiToLowerCase_nbsp s : NBSP ∉ s → NBSP ∉ asciiToLowerCase s.
Proof.
  unfold asciiToLowerCase. intros Hs (c & Hc & Hin)%list_elem_of_fmap.
  destruct (asciiLowerUnit_spec c) as [[Hr Hl] | [Hr Hl]]; rewrite Hl in Hc.
  - unfold NBSP in Hc. lia.
  - by subst c.
Qed.

Lemma asciiToLowerCase_trim s :
  String_trim s = s → String_trim (asciiToLowerCase s) = asciiToLowerCase s.
Proof.
  intros Hs. unfold asciiToLowerCase.
  rewrite String_trim_fmap by apply isWhiteSpace_asciiLowerUnit. by rewrite Hs.
Qed.

(** *** Idempotence *)

Section normalizer_laws.

Variable toLowerCase : jsstring → jsstring.

(** What the proofs use of the lower-casing of the host: lower-casing twice
    is lower-casing once, it produces no non-breaking space that was not
    there, and it neither yields nor removes white space at the two ends. *)
Hypothesis toLowerCase_idem : ∀ s, toLowerCase (toLowerCase s) = toLowerCase s.
Hypothesis toLowerCase_nbsp : ∀ s, NBSP ∉ s → NBSP ∉ toLowerCase s.
Hypothesis toLowerCase_trim :
  ∀ s, String_trim s = s → String_trim (toLowerCase s) = toLowerCase s.

(** C3. For every string [x] and every options value, normalizing the
    normalized string changes nothing. *)
Theorem normalizeLine_idempotent (x : jsstring) (options : NormalizeOptions) :
  normalizeLine toLowerCase (normalizeLine toLowerCase x options) options
  = normalizeLine toLowerCase x options.
Proof.
  unfold normalizeLine. destruct options as [[|] [|]]; cbn [trim caseInsensitive].
  - assert (Ht : String_trim (toLowerCase (String_trim (replaceNbsp x)))
                 = toLowerCase (String_trim (replaceNbsp x)))
      by apply toLowerCase_trim, String_trim_idem.
    rewrite (replaceNbsp_id (toLowerCase _)), Ht; [apply toLowerCase_idem |].
    apply toLowerCase_nbsp. intros Hin%elem_of_String_trim.
    by apply NBSP_replaceNbsp in Hin.
  - rewrite (replaceNbsp_id (String_trim _)); [apply String_trim_idem |].
    intros Hin%elem_of_String_trim. by apply NBSP_replaceNbsp in Hin.
  - rewrite (replaceNbsp_id (toLowerCase _)); [apply toLowerCase_idem |].
    apply toLowerCase_nbsp, NBSP_replaceNbsp.
  - apply replaceNbsp_id, NBSP_replaceNbsp.
Qed.

End normalizer_laws.

Lemma normalizeLine_idempotent_witness :
  let options := {| trim := true; caseInsensitive := true |} in
  let x := 0x20%N :: js "Acme" ++ NBSP :: js "Inc " in
  normalizeLine asciiToLowerCase (normalizeLine asciiToLowerCase x options) options
  = normalizeLine asciiToLowerCase x options.
Proof.
  intros options x.
  exact (normalizeLine_idempotent asciiToLowerCase asciiToLowerCase_idem
           asciiToLowerCase_nbsp asciiToLowerCase_trim x options).
Defined.

(** ** Blank lines *)

Lemma trimStart_nil_blank s : trimStart s = [] → isBlank s.
Proof.
  induction s as [| c s IH]; cbn; [by constructor |].
  destruct (isWhiteSpace c) eqn:E; [| done]. intros Hs. constructor; [done | by apply IH].
Qed.

Lemma String_trim_nil_blank s : String_trim s = [] → isBlank s.
Proof.
  unfold String_trim, trimEnd. intros Hnil.
  assert (Hrev : trimStart (reverse (trimStart s)) = []).
  { apply (f_equal reverse) in Hnil. by rewrite reverse_involutive in Hnil. }
  apply trimStart_nil_blank in Hrev. unfold isBlank in Hrev.
  rewrite Forall_reverse in Hrev.
  pose proof (startsClean_trimStart s) as Hclean.
  apply trimStart_nil_blank. destruct (trimStart s) as [| c t]; [done |].
  apply Forall_cons in Hrev as [Hc _]. cbn in Hclean. congruence.
Qed.

Lemma isBlank_replaceNbsp_inv s : isBlank (replaceNbsp s) → isBlank s.
Proof.
  unfold isBlank, replaceNbsp. rewrite Forall_fmap. intros Hs.
  eapply Forall_impl; [exact Hs |]. intros c. cbn.
  destruct (N.eqb_spec c NBSP) as [-> | _]; done.
Qed.

Section blank_lines.

Variable toLowerCase : jsstring → jsstring.

(** When every line of [lines] leaves the loop variables as they are, so
    does the whole loop. *)
Lemma foldl_loopBody_skip options (lines : list jsstring) st :
  Forall (λ raw, normalizeLine toLowerCase raw options = []) lines →
  foldl (loopBody toLowerCase options) st lines = st.
Proof.
  induction 1 as [| raw lines Hraw _ IH]; cbn; [done |].
  unfold loopBody at 2. by rewrite Hraw.
Qed.

(** The loop sees only the accepted lines. *)
Lemma foldl_loopBody_accepted options (lines : list jsstring) st :
  foldl (loopBody toLowerCase options) st (accepted toLowerCase lines options)
  = foldl (loopBody toLowerCase options) st lines.
Proof.
  unfold accepted. revert st. induction lines as [| raw lines IH]; intros st; [done |].
  rewrite filter_cons. destruct (decide (normalizeLine toLowerCase raw options ≠ []))
    as [Hne | Heq]; cbn.
  - apply IH.
  - apply dec_stable in Heq. rewrite IH. f_equal. unfold loopBody. by rewrite Heq.
Qed.

(** The lower-casing of the host maps the empty string to itself. *)
Hypothesis toLowerCase_empty : toLowerCase [] = [].

Lemma normalizeLine_blank options raw :
  (if trim options then isBlank raw else raw = []) →
  normalizeLine toLowerCase raw options = [].
Proof.
  unfold normalizeLine. destruct options as [[|] ci]; cbn [trim caseInsensitive].
  - intros Hb. rewrite String_trim_blank by by apply isBlank_replaceNbsp.
    by destruct ci.
  - intros ->. by destruct ci.
Qed.

(** The lower-casing of the host maps nothing but the empty string to the
    empty string. *)
Hypothesis toLowerCase_nonempty : ∀ s, toLowerCase s = [] → s = [].

Lemma normalizeLine_nil_inv options raw :
  normalizeLine toLowerCase raw options = [] →
  if trim options then isBlank raw else raw = [].
Proof.
  unfold normalizeLine. destruct options as [t ci]. cbn [trim caseInsensitive].
  intros Hnil.
  assert (Hinner : (if t then String_trim (replaceNbsp raw) else replaceNbsp raw) = []).
  { destruct ci; [by apply toLowerCase_nonempty | done]. }
  destruct t.
  - by apply isBlank_replaceNbsp_inv, String_trim_nil_blank.
  - unfold replaceNbsp in Hinner. by apply fmap_nil_inv in Hinner.
Qed.

(** C6, as the code has it. With [trim] set, an input made only of lines
    of white space and non-breaking spaces (empty lines included) gives an
    empty set, an empty originals map, [totalCount = 0] and
    [uniqueCount = 0]; with [trim] off this holds for the input made only
    of empty lines. Conversely, whenever [totalCount] or [uniqueCount] is
    0 the input is of that kind: with [trim] off every other line, a line
    of spaces among them, is counted. For every input and every options
    value, the lines that normalize to the empty string contribute nothing:
    the result is the result on the accepted lines alone. *)
Theorem toUniqueSet_blank_lines (options : NormalizeOptions) :
  (∀ lines,
     Forall (λ raw, if trim options then isBlank raw else raw = []) lines →
     toUniqueSet toLowerCase lines options
     = {| set := []; normalizedToOriginals := []; totalCount := 0; uniqueCount := 0 |})
  ∧ (∀ lines,
       toUniqueSet toLowerCase lines options
       = toUniqueSet toLowerCase (accepted toLowerCase lines options) options)
  ∧ (∀ lines,
       totalCount (toUniqueSet toLowerCase lines options) = 0
       ∨ uniqueCount (toUniqueSet toLowerCase lines options) = 0 →
       Forall (λ raw, if trim options then isBlank raw else raw = []) lines).
Proof.
  split; [| split].
  - intros lines Hlines. unfold toUniqueSet.
    rewrite foldl_loopBody_skip; [done |].
    eapply Forall_impl; [exact Hlines |]. intros raw. apply normalizeLine_blank.
  - intros lines. unfold toUniqueSet. by rewrite foldl_loopBody_accepted.
  - intros lines Hzero. apply Forall_forall. intros raw Hraw.
    apply normalizeLine_nil_inv.
    destruct (decide (normalizeLine toLowerCase raw options = [])) as [| Hne]; [done |].
    exfalso.
    pose proof (loop_inv toLowerCase options lines) as [_ Hel _ _ Ht _].
    assert (Hkey : normalizeLine toLowerCase raw options
                   ∈ ls_set (foldl (loopBody toLowerCase options) initialState lines)).
    { apply Hel. split; [done |]. by exists raw. }
    assert (Hacc : raw ∈ accepted toLowerCase lines options)
      by (by apply list_elem_of_filter).
    destruct Hzero as [Hzero | Hzero]; cbn in Hzero.
    + rewrite Ht in Hzero. apply nil_length_inv in Hzero.
      rewrite Hzero in Hacc. by apply elem_of_nil in Hacc.
    + unfold JSSet.size in Hzero. apply nil_length_inv in Hzero.
      rewrite Hzero in Hkey. by apply elem_of_nil in Hkey.
Qed.

End blank_lines.

Lemma asciiToLowerCase_nil_inv s : asciiToLowerCase s = [] → s = [].
Proof. unfold asciiToLowerCase. apply fmap_nil_inv. Qed.

Lemma toUniqueSet_blank_lines_witness :
  toUniqueSet asciiToLowerCase
    [js "   "; []; [NBSP; 0x09%N; NBSP]] {| trim := true; caseInsensitive := true |}
  = {| set := []; normalizedToOriginals := []; totalCount := 0; uniqueCount := 0 |}
  ∧ Forall (λ raw : jsstring, raw = []) [[]; []].
Proof.
  pose proof (toUniqueSet_blank_lines asciiToLowerCase eq_refl asciiToLowerCase_nil_inv)
    as Hblank.
  split.
  - apply (proj1 (Hblank {| trim := true; caseInsensitive := true |})).
    repeat constructor.
  - apply (proj2 (proj2 (Hblank {| trim := false; caseInsensitive := true |}))
             [[]; []]).
    left. reflexivity.
Defined.

(** C6 as stated fails when [trim] is off: a line of one space is made of
    white space only, it normalizes to itself and is counted. *)
Lemma toUniqueSet_blank_untrimmed_counted :
  let options := {| trim := false; caseInsensitive := false |} in
  let r := toUniqueSet asciiToLowerCase [js " "] options in
  isBlank (js " ")
  ∧ totalCount r = 1 ∧ uniqueCount r = 1
  ∧ ¬ (totalCount r = 0 ∧ uniqueCount r = 0).
Proof.
  cbv zeta. split; [by repeat constructor |].
  split; [reflexivity |]. split; [reflexivity |].
  intros [Ht _]. vm_compute in Ht. discriminate Ht.
Qed.

(** ** The end-to-end scenario *)

Example splitLines_newlines :
  splitLines (js "a" ++ [CR; LF] ++ js "b" ++ [CR] ++ js "c" ++ [LF])
  = [js "a"; js "b"; js "c"; []]
  ∧ splitLines [] = [].
Proof. split; reflexivity. Qed.

Example getOriginalList_scenario :
  let textA := js "Acme Inc" ++ [LF] ++ js "Acme Inc" ++ [LF] ++ js "Globex" in
  let textB := js "acme inc" ++ [LF] ++ js "Initech" in
  let options := {| trim := true; caseInsensitive := true |} in
  matches (results asciiToLowerCase textA textB options) = [js "acme inc"]
  ∧ getOriginalList asciiToLowerCase textA textB options
      [js "acme inc"; js "initech"; js "unknown"]
    = [Some (js "Acme Inc"); Some (js "Initech"); Some (js "unknown")].
Proof. split; vm_compute; reflexivity. Qed.

Section scenario.

Variable toLowerCase : jsstring → jsstring.

(** On ASCII input the lower-casing of the host is the ASCII one. *)
Hypothesis toLowerCase_ascii : ∀ s, isAscii s → toLowerCase s = asciiToLowerCase s.

Lemma normalizeLine_ascii options raw :
  isAscii raw →
  normalizeLine toLowerCase raw options = normalizeLine asciiToLowerCase raw options.
Proof.
  intros Hraw. unfold normalizeLine.
  destruct (caseInsensitive options); [| done].
  apply toLowerCase_ascii. destruct (trim options).
  - by apply isAscii_String_trim, isAscii_replaceNbsp.
  - by apply isAscii_replaceNbsp.
Qed.

Lemma toUniqueSet_ascii options lines :
  Forall isAscii lines →
  toUniqueSet toLowerCase lines options = toUniqueSet asciiToLowerCase lines options.
Proof.
  intros Hlines. unfold toUniqueSet.
  assert (Hloop : ∀ st, foldl (loopBody toLowerCase options) st lines
                        = foldl (loopBody asciiToLowerCase options) st lines).
  { induction Hlines as [| raw lines Hraw _ IH]; intros st; [done |].
    cbn. rewrite IH. f_equal. unfold loopBody. by rewrite normalizeLine_ascii. }
  by rewrite Hloop.
Qed.

(** C4. Side A = ["Acme Inc", "Acme Inc", "Globex"], side B = ["acme inc",
    "Initech"], options [{trim: true, caseInsensitive: true}]: the
    pipeline returns aTotal = 3, aUnique = 2, bTotal = 2, bUnique = 2,
    matches = {"acme inc"}, onlyA = {"globex"}, onlyB = {"initech"}. *)
Theorem reconcile_scenario :
  reconcile toLowerCase
    [js "Acme Inc"; js "Acme Inc"; js "Globex"] [js "acme inc"; js "Initech"]
    {| trim := true; caseInsensitive := true |}
  = {| aTotal := 3; bTotal := 2; aUnique := 2; bUnique := 2;
       matches := [js "acme inc"];
       onlyA := [js "globex"];
       onlyB := [js "initech"] |}.
Proof.
  unfold reconcile. rewrite !toUniqueSet_ascii.
  - vm_compute. reflexivity.
  - repeat constructor.
  - repeat constructor.
Qed.

End scenario.

Lemma reconcile_scenario_witness :
  reconcile asciiToLowerCase
    [js "Acme Inc"; js "Acme Inc"; js "Globex"] [js "acme inc"; js "Initech"]
    {| trim := true; caseInsensitive := true |}
  = {| aTotal := 3; bTotal := 2; aUnique := 2; bUnique := 2;
       matches := [js "acme inc"];
       onlyA := [js "globex"];
       onlyB := [js "initech"] |}.
Proof.
  exact (reconcile_scenario asciiToLowerCase (λ s _, eq_refl)).
Defined.

(** ** The read of the latest summary row *)

Section latest_row.

Variable Timestamp : Type.
Variable ts_leb : Timestamp → Timestamp → bool.

(** The order SQLite sorts [created_at] by compares any two values and is
    transitive. *)
Hypothesis ts_total : ∀ a b, ts_leb a b = true ∨ ts_leb b a = true.
Hypothesis ts_trans : ∀ a b c, ts_leb a b = true → ts_leb b c = true → ts_leb a c = true.

Lemma orderByCreatedAtDescLimit1_None (rows : list (SummaryRow Timestamp)) :
  orderByCreatedAtDescLimit1 ts_leb rows = None → rows = [].
Proof.
  destruct rows as [| row rest]; [done |]. cbn.
  destruct (orderByCreatedAtDescLimit1 ts_leb rest) as [best |]; [| done].
  by destruct (ts_leb _ _).
Qed.

Lemma orderByCreatedAtDescLimit1_Some (rows : list (SummaryRow Timestamp)) latest :
  orderByCreatedAtDescLimit1 ts_leb rows = Some latest →
  latest ∈ rows
  ∧ ∀ row, row ∈ rows → ts_leb (created_at row) (created_at latest) = true.
Proof.
  revert latest. induction rows as [| row rest IH]; intros latest; [done |]. cbn.
  destruct (orderByCreatedAtDescLimit1 ts_leb rest) as [best |] eqn:E.
  - destruct (IH best eq_refl) as [Hin Hmax].
    destruct (ts_leb (created_at best) (created_at row)) eqn:Hcmp; intros [= <-].
    + split; [by apply elem_of_cons; left |].
      intros row' [-> | Hin']%elem_of_cons.
      * by destruct (ts_total (created_at row) (created_at row)).
      * eapply ts_trans; [by apply Hmax | done].
    + split; [by apply elem_of_cons; right |].
      intros row' [-> | Hin']%elem_of_cons.
      * destruct (ts_total (created_at row) (created_at best)); congruence.
      * by apply Hmax.
  - intros [= <-]. apply orderByCreatedAtDescLimit1_None in E as ->.
    split; [by apply elem_of_cons; left |].
    intros row' [-> | []%elem_of_nil]%elem_of_cons.
    by destruct (ts_total (created_at row) (created_at row)).
Qed.

(** C9. For every requested filter identity and every table of summary
    rows, the read returns a row of that identity that no row of the same
    identity exceeds in [created_at] (so never an older row when a newer
    one exists), and it reports no data exactly when the table has no row
    of that identity; the response carries the values of the row returned.
    The rows of an identity are: for a filter id other than the strings
    'null' and the empty one, the rows whose [filter_id] is that id; for
    no filter, which a request writes as the string 'null' (the page does
    so), as the empty string or as no parameter at all, the rows whose
    [filter_id] is NULL or empty, in each of the three forms. *)
Theorem selectLatest_most_recent (filterId : option jsstring)
    (rows : list (SummaryRow Timestamp)) :
  match selectLatest ts_leb filterId rows with
  | None =>
      (∀ row, row ∈ rows → whereClause filterId row = false)
      ∧ hasData (GET ts_leb filterId rows) = false
  | Some latest =>
      latest ∈ rows
      ∧ whereClause filterId latest = true
      ∧ (∀ row, row ∈ rows → whereClause filterId row = true →
           ts_leb (created_at row) (created_at latest) = true)
      ∧ hasData (GET ts_leb filterId rows) = true
      ∧ lastUpdated (GET ts_leb filterId rows) = Some (created_at latest)
      ∧ running (GET ts_leb filterId rows) = orZero (matching_companies latest)
      ∧ notActive (GET ts_leb filterId rows) = orZero (non_matching_pipedrive latest)
  end
  ∧ (∀ row : SummaryRow Timestamp,
       whereClause None row = true
       ↔ filter_id row = None ∨ filter_id row = Some [])
  ∧ (∀ id (row : SummaryRow Timestamp), id ≠ js "null" → id ≠ [] →
       (whereClause (Some id) row = true ↔ filter_id row = Some id))
  ∧ (∀ row : SummaryRow Timestamp,
       whereClause (Some (js "null")) row = true
       ↔ filter_id row = None ∨ filter_id row = Some [])
  ∧ (∀ row : SummaryRow Timestamp,
       whereClause (Some []) row = true
       ↔ filter_id row = None ∨ filter_id row = Some [])
  ∧ (∀ filterId,
       filterId = None ∨ filterId = Some (js "null") ∨ filterId = Some [] →
       selectLatest ts_leb filterId rows = selectLatest ts_leb None rows).
Proof.
  assert (Horiginal : ∀ (request : option jsstring) (row : SummaryRow Timestamp),
            isOriginalData request = true →
            (whereClause request row = true
             ↔ filter_id row = None ∨ filter_id row = Some [])).
  { intros request row Hreq. unfold whereClause. rewrite Hreq.
    destruct (filter_id row) as [s |]; [| by intuition].
    rewrite bool_decide_eq_true. split; [intros ->; by right | by intros [| [= ->]]]. }
  split; [| split; [| split; [| split; [| split]]]];
    [| | | intros row; by apply Horiginal | intros row; by apply Horiginal |].
  - unfold GET. destruct (selectLatest ts_leb filterId rows) as [latest |] eqn:E;
      unfold selectLatest in E.
    + apply orderByCreatedAtDescLimit1_Some in E as [Hin Hmax].
      apply list_elem_of_filter in Hin as [Hw Hin].
      repeat split; try done.
      intros row Hrow Hwhere. apply Hmax. by apply list_elem_of_filter.
    + apply orderByCreatedAtDescLimit1_None in E. split; [| done].
      intros row Hrow. destruct (whereClause filterId row) eqn:Hw; [| done].
      assert (Hin : row ∈ filter (λ row, whereClause filterId row = true) rows)
        by (by apply list_elem_of_filter).
      rewrite E in Hin. by apply elem_of_nil in Hin.
  - intros row. unfold whereClause. cbn.
    destruct (filter_id row) as [s |]; [| by intuition].
    rewrite bool_decide_eq_true. split; [intros ->; by right | by intros [| [= ->]]].
  - intros id row Hnull Hempty. unfold whereClause, isOriginalData.
    rewrite !bool_decide_eq_false_2 by done. cbn.
    destruct (filter_id row) as [s |]; [| done].
    by rewrite bool_decide_eq_true.
  - intros request Hreq. unfold selectLatest. f_equal.
    apply list_filter_iff. intros row.
    rewrite (Horiginal None row eq_refl). apply Horiginal.
    by destruct Hreq as [-> | [-> | ->]].
Qed.

End latest_row.

Lemma selectLatest_most_recent_witness :
  let row (id : option jsstring) (n : Z) (t : N) :=
    {| filter_id := id; filter_name := None; matching_companies := Some n;
       non_matching_pipedrive := None; created_at := t |} in
  let rows :=
    [row (Some (js "12345")) 4%Z 10%N; row None 7%Z 30%N;
     row (Some (js "12345")) 5%Z 20%N; row (Some (js "12345")) 6%Z 15%N] in
  selectLatest N.leb (Some (js "12345")) rows = Some (row (Some (js "12345")) 5%Z 20%N)
  ∧ (∀ r, r ∈ rows → whereClause (Some (js "12345")) r = true →
          N.leb (created_at r) 20%N = true)
  ∧ selectLatest N.leb (Some (js "null")) rows = Some (row None 7%Z 30%N)
  ∧ selectLatest N.leb (Some (js "null")) rows = selectLatest N.leb None rows.
Proof.
  intros row rows. split; [reflexivity |].
  assert (Htotal : ∀ a b : N, N.leb a b = true ∨ N.leb b a = true).
  { intros a b. rewrite !N.leb_le. lia. }
  assert (Htrans : ∀ a b c : N, N.leb a b = true → N.leb b c = true → N.leb a c = true).
  { intros a b c. rewrite !N.leb_le. lia. }
  pose proof (selectLatest_most_recent N N.leb Htotal Htrans (Some (js "12345")) rows)
    as (Hlatest & _ & _ & _ & _ & Hforms).
  change (selectLatest N.leb (Some (js "12345")) rows)
    with (Some (row (Some (js "12345")) 5%Z 20%N)) in Hlatest.
  destruct Hlatest as (_ & _ & Hmax & _).
  split; [exact Hmax |]. split; [reflexivity |].
  apply Hforms. right. by left.
Defined.

(** ** The result cache *)

Module OrchestratorFacts.
Import FilterRegistry Orchestrator.

Section cache_facts.

Variable Timestamp : Type.
Variable ts_leb : Timestamp → Timestamp → bool.
Variable reconcileFresh : option string → ErrorKind + Reconciliation.

Local Abbreviation run := (runMatching ts_leb reconcileFresh).

Lemma getLatest_put (cache : list (ReconciliationSummary Timestamp)) summary fid :
  getLatest ts_leb (put cache summary) fid
  = if bool_decide (filterId summary = fid) then
      match getLatest ts_leb cache fid with
      | None => Some summary
      | Some b =>
          if ts_leb (computedAt b) (computedAt summary) then Some summary else Some b
      end
    else getLatest ts_leb cache fid.
Proof. unfold getLatest, put. by rewrite foldl_app. Qed.

(** A miss fills the cache with the summary it returns. *)
Lemma getLatest_put_miss (cache : list (ReconciliationSummary Timestamp)) summary :
  getLatest ts_leb cache (filterId summary) = None →
  getLatest ts_leb (put cache summary) (filterId summary) = Some summary.
Proof. intros Hmiss. by rewrite getLatest_put, bool_decide_eq_true_2, Hmiss. Qed.


End cache_facts.


End OrchestratorFacts.

(** ** Filter reference extraction *)

Module FilterRegistryFacts.
Import FilterRegistry.

Lemma append_cons a (s t : string) : (String a s +:+ t = String a (s +:+ t))%string.
Proof. reflexivity. Qed.

Lemma stripPrefix_Some lit s rest :
  stripPrefix lit s = Some rest → s = (lit +:+ rest)%string.
Proof.
  revert s. induction lit as [| a lit IH]; intros s; cbn.
  - by intros [= ->].
  - destruct s as [| b s]; [done |].
    destruct (decide (a = b)) as [<- | Hne]; [| done].
    intros Hs. by rewrite (IH s Hs).
Qed.

Lemma allDigits_takeDigits s : allDigits (takeDigits s) = true.
Proof.
  induction s as [| a s IH]; [done |]. cbn.
  destruct (isDigit a) eqn:E; [| done]. cbn. by rewrite E.
Qed.

Lemma takeDigits_split s :
  ∃ post, s = (takeDigits s +:+ post)%string ∧ startsWithDigit post = false.
Proof.
  induction s as [| a s (post & Hs & Hpost)].
  - by exists EmptyString.
  - cbn. destruct (isDigit a) eqn:E.
    + exists post. by rewrite append_cons, <- Hs.
    + by exists (String a s).
Qed.

Lemma digitsHere_Some lit s digits :
  digitsHere lit s = Some digits →
  digits ≠ EmptyString ∧ allDigits digits = true
  ∧ ∃ post, s = (lit +:+ digits +:+ post)%string ∧ startsWithDigit post = false.
Proof.
  unfold digitsHere. destruct (stripPrefix lit s) as [rest |] eqn:Hs; [| done].
  apply stripPrefix_Some in Hs as ->.
  pose proof (allDigits_takeDigits rest) as Hall.
  destruct (takeDigits_split rest) as (post & Hrest & Hpost).
  destruct (takeDigits rest) as [| a d] eqn:E; [done |].
  intros [= <-]. split; [done |]. split; [done |].
  exists post. by rewrite <- Hrest.
Qed.

(** What [digitsAfter] finds: the digits directly after the first place
    where [lit] is followed by a digit, as a maximal run. *)
Lemma digitsAfter_Some lit s digits :
  digitsAfter lit s = Some digits →
  ∃ pre post,
    s = (pre +:+ lit +:+ digits +:+ post)%string
    ∧ digits ≠ EmptyString ∧ allDigits digits = true
    ∧ startsWithDigit post = false
    ∧ ∀ pre' rest', s = (pre' +:+ rest')%string →
                    String.length pre' < String.length pre →
                    digitsHere lit rest' = None.
Proof.
  induction s as [| a s IH]; cbn [digitsAfter].
  - destruct (digitsHere lit EmptyString) as [d |] eqn:E; [| done].
    intros [= ->]. apply digitsHere_Some in E as (Hne & Hall & post & Hs & Hpost).
    exists EmptyString, post. repeat split; try done. cbn. lia.
  - destruct (digitsHere lit (String a s)) as [d |] eqn:E.
    + intros [= ->]. apply digitsHere_Some in E as (Hne & Hall & post & Hs & Hpost).
      exists EmptyString, post. repeat split; try done. cbn. lia.
    + intros (pre & post & Hs & Hne & Hall & Hpost & Hfirst)%IH.
      exists (String a pre), post. rewrite append_cons, <- Hs.
      repeat split; try done.
      intros pre' rest' Hsplit Hlen. destruct pre' as [| a' pre'].
      * change (String a s = rest') in Hsplit. by rewrite <- Hsplit.
      * rewrite append_cons in Hsplit. injection Hsplit as <- Hsplit.
        apply (Hfirst pre' rest' Hsplit). cbn in Hlen. lia.
Qed.

Lemma hasDigit_app pre s : hasDigit s = true → hasDigit (pre +:+ s) = true.
Proof.
  intros Hs. induction pre as [| a pre IH]; [done |].
  rewrite append_cons. cbn. rewrite IH. apply orb_true_r.
Qed.

Lemma hasDigit_app_l s post : hasDigit s = true → hasDigit (s +:+ post) = true.
Proof.
  induction s as [| a s IH]; [done |]. rewrite append_cons. cbn.
  destruct (isDigit a); [done |]. exact IH.
Qed.

Lemma hasDigit_digits digits :
  digits ≠ EmptyString → allDigits digits = true → hasDigit digits = true.
Proof. destruct digits as [| a d]; cbn; [done |]. by intros _ [-> _]%andb_true_iff. Qed.

Lemma digitsAfter_hasDigit lit s digits :
  digitsAfter lit s = Some digits → hasDigit s = true.
Proof.
  intros (pre & post & -> & Hne & Hall & _)%digitsAfter_Some.
  apply hasDigit_app, hasDigit_app, hasDigit_app_l.
  by apply hasDigit_digits.
Qed.

Lemma digitsAfter_empty_None s :
  digitsAfter EmptyString s = None → hasDigit s = false.
Proof.
  induction s as [| a s IH]; [done |]. cbn.
  destruct (isDigit a) eqn:E; [done |]. cbn. exact IH.
Qed.

(** The fallback finds the first run of digits of the string. *)
Lemma digitsAfter_empty_Some s digits :
  digitsAfter EmptyString s = Some digits →
  ∃ pre post,
    s = (pre +:+ digits +:+ post)%string ∧ hasDigit pre = false
    ∧ digits ≠ EmptyString ∧ allDigits digits = true
    ∧ startsWithDigit post = false.
Proof.
  induction s as [| a s IH]; [done |]. cbn [digitsAfter].
  destruct (digitsHere EmptyString (String a s)) as [d |] eqn:E.
  - intros [= ->]. apply digitsHere_Some in E as (Hne & Hall & post & Hs & Hpost).
    by exists EmptyString, post.
  - intros (pre & post & Hs & Hpre & Hrest)%IH.
    exists (String a pre), post. rewrite append_cons, <- Hs. split; [done |].
    split; [| done]. cbn. rewrite Hpre, orb_false_r.
    unfold digitsHere in E. cbn in E. by destruct (isDigit a).
Qed.

Lemma append_nil_l (s : string) : (EmptyString +:+ s = s)%string.
Proof. reflexivity. Qed.

Lemma digitsAfter_eq lit s :
  digitsAfter lit s
  = match digitsHere lit s with
    | Some digits => Some digits
    | None =>
        match s with
        | EmptyString => None
        | String _ rest => digitsAfter lit rest
        end
    end.
Proof. by destruct s. Qed.

Lemma stripPrefix_app lit rest : stripPrefix lit (lit +:+ rest) = Some rest.
Proof.
  induction lit as [| a lit IH]; [done |].
  rewrite append_cons. cbn. by rewrite decide_True.
Qed.

Lemma takeDigits_nil_iff s : takeDigits s = EmptyString ↔ startsWithDigit s = false.
Proof. destruct s as [| a s]; cbn; [done |]. by destruct (isDigit a). Qed.

Lemma takeDigits_app digits post :
  allDigits digits = true → startsWithDigit post = false →
  takeDigits (digits +:+ post) = digits.
Proof.
  intros Hall Hpost. induction digits as [| a digits IH].
  - rewrite append_nil_l. by apply takeDigits_nil_iff.
  - cbn in Hall. apply andb_true_iff in Hall as [Ha Hall].
    rewrite append_cons. cbn. by rewrite Ha, IH.
Qed.

(** Where [lit] starts the string: digits are found exactly when one
    follows. *)
Lemma digitsHere_None_iff lit s :
  digitsHere lit s = None
  ↔ ∀ rest, s = (lit +:+ rest)%string → startsWithDigit rest = false.
Proof.
  unfold digitsHere. split.
  - intros Hnone rest ->. rewrite stripPrefix_app in Hnone.
    apply takeDigits_nil_iff. by destruct (takeDigits rest).
  - intros Hno. destruct (stripPrefix lit s) as [rest |] eqn:E; [| done].
    apply stripPrefix_Some in E. apply Hno, takeDigits_nil_iff in E. by rewrite E.
Qed.

Lemma digitsHere_app lit digits post :
  digits ≠ EmptyString → allDigits digits = true → startsWithDigit post = false →
  digitsHere lit (lit +:+ digits +:+ post) = Some digits.
Proof.
  intros Hne Hall Hpost. unfold digitsHere.
  rewrite stripPrefix_app, takeDigits_app by done. by destruct digits.
Qed.

(** The search finds what the rule describes, ... *)
Lemma digitsAfter_complete lit s digits :
  firstDigitsAfter lit s digits → digitsAfter lit s = Some digits.
Proof.
  intros (pre & post & (-> & Hne & Hall & Hpost) & Hfirst).
  induction pre as [| a pre IH].
  - rewrite append_nil_l, digitsAfter_eq. by rewrite digitsHere_app.
  - rewrite append_cons, digitsAfter_eq.
    assert (Hhere : digitsHere lit (String a (pre +:+ lit +:+ digits +:+ post)) = None).
    { apply digitsHere_None_iff. intros rest Hrest.
      apply (Hfirst EmptyString rest); [by rewrite append_cons, append_nil_l |].
      cbn. lia. }
    rewrite Hhere. apply IH. intros pre' rest' Hsplit Hlen.
    apply (Hfirst (String a pre') rest').
    + by rewrite !append_cons, Hsplit.
    + cbn. lia.
Qed.

Lemma digitsAfter_None_complete lit s : noDigitsAfter lit s → digitsAfter lit s = None.
Proof.
  unfold noDigitsAfter. induction s as [| a s IH]; intros Hno; rewrite digitsAfter_eq.
  - assert (Hhere : digitsHere lit EmptyString = None).
    { apply digitsHere_None_iff. intros rest Hrest. by apply (Hno EmptyString rest). }
    by rewrite Hhere.
  - assert (Hhere : digitsHere lit (String a s) = None).
    { apply digitsHere_None_iff. intros rest Hrest. by apply (Hno EmptyString rest). }
    rewrite Hhere. apply IH. intros pre rest Hsplit.
    apply (Hno (String a pre) rest). by rewrite append_cons, Hsplit.
Qed.

(** ... and nothing else. *)
Lemma digitsAfter_sound lit s digits :
  digitsAfter lit s = Some digits → firstDigitsAfter lit s digits.
Proof.
  intros (pre & post & Hs & Hne & Hall & Hpost & Hfirst)%digitsAfter_Some.
  exists pre, post. split; [done |].
  intros pre' rest' Hsplit Hlen.
  specialize (Hfirst pre' (lit +:+ rest')%string Hsplit Hlen).
  by apply (proj1 (digitsHere_None_iff lit _) Hfirst rest').
Qed.

Lemma digitsAfter_None_sound lit s : digitsAfter lit s = None → noDigitsAfter lit s.
Proof.
  intros Hnone pre rest ->. induction pre as [| a pre IH].
  - rewrite append_nil_l, digitsAfter_eq in Hnone.
    destruct (digitsHere lit (lit +:+ rest)) eqn:E; [done |].
    by apply (proj1 (digitsHere_None_iff lit _) E rest).
  - rewrite append_cons, digitsAfter_eq in Hnone.
    destruct (digitsHere lit (String a (pre +:+ lit +:+ rest))); [done |].
    by apply IH.
Qed.

(** C7. The filter id of a reference is the maximal digit run directly
    after the first [filters/] that a digit follows; when no [filters/] is
    followed by a digit, the one after the first [filter_id=] that a digit
    follows; when neither occurs, the first digit run of the string; and
    the extractor returns nothing else. The extraction fails, with
    [InvalidReferenceError], exactly when the string has no digit. The
    three documented URL forms give 12345, 67890 and 11111, also when
    other digits come earlier in the string. *)
Theorem resolveFilterReference_spec :
  (∀ reference digits,
     firstDigitsAfter "filters/" reference digits →
     resolveFilterReference reference = inr digits)
  ∧ (∀ reference digits,
       noDigitsAfter "filters/" reference →
       firstDigitsAfter "filter_id=" reference digits →
       resolveFilterReference reference = inr digits)
  ∧ (∀ reference digits,
       noDigitsAfter "filters/" reference →
       noDigitsAfter "filter_id=" reference →
       firstDigitsAfter "" reference digits →
       resolveFilterReference reference = inr digits)
  ∧ (∀ reference digits,
       resolveFilterReference reference = inr digits →
       firstDigitsAfter "filters/" reference digits
       ∨ (noDigitsAfter "filters/" reference
          ∧ firstDigitsAfter "filter_id=" reference digits)
       ∨ (noDigitsAfter "filters/" reference
          ∧ noDigitsAfter "filter_id=" reference
          ∧ firstDigitsAfter "" reference digits))
  ∧ (∀ reference,
       resolveFilterReference reference = inl InvalidReferenceError
       ↔ hasDigit reference = false)
  ∧ (∀ reference e,
       resolveFilterReference reference = inl e → e = InvalidReferenceError)
  ∧ resolveFilterReference "https://x/filters/12345" = inr "12345"%string
  ∧ resolveFilterReference "https://x/organizations?filter_id=67890"
    = inr "67890"%string
  ∧ resolveFilterReference "https://x/filters/11111?view=list" = inr "11111"%string
  ∧ resolveFilterReference "https://x1/filters/12345" = inr "12345"%string
  ∧ resolveFilterReference "https://x9/organizations?filter_id=67890&page=2"
    = inr "67890"%string
  ∧ resolveFilterReference "https://x/organizations?filter_id=1&from=filters/22"
    = inr "22"%string
  ∧ resolveFilterReference "https://x/organizations/4711" = inr "4711"%string.
Proof.
  unfold resolveFilterReference.
  split.
  { intros reference digits Ha%digitsAfter_complete. by rewrite Ha. }
  split.
  { intros reference digits Ha%digitsAfter_None_complete Hb%digitsAfter_complete.
    by rewrite Ha, Hb. }
  split.
  { intros reference digits Ha%digitsAfter_None_complete
      Hb%digitsAfter_None_complete Hc%digitsAfter_complete.
    by rewrite Ha, Hb, Hc. }
  split.
  { intros reference digits.
    destruct (digitsAfter "filters/" reference) as [a |] eqn:Ea.
    - intros [= <-]. left. by apply digitsAfter_sound.
    - apply digitsAfter_None_sound in Ea.
      destruct (digitsAfter "filter_id=" reference) as [b |] eqn:Eb.
      + intros [= <-]. right. left. split; [done |]. by apply digitsAfter_sound.
      + apply digitsAfter_None_sound in Eb.
        destruct (digitsAfter "" reference) as [c |] eqn:Ec; [| done].
        intros [= <-]. right. right. split; [done |]. split; [done |].
        by apply digitsAfter_sound. }
  split.
  { intros reference. split.
    - destruct (digitsAfter "filters/" reference); [done |].
      destruct (digitsAfter "filter_id=" reference); [done |].
      destruct (digitsAfter "" reference) eqn:E; [done |].
      intros _. by apply digitsAfter_empty_None.
    - intros Hno.
      destruct (digitsAfter "filters/" reference) eqn:Ea;
        [apply digitsAfter_hasDigit in Ea; congruence |].
      destruct (digitsAfter "filter_id=" reference) eqn:Eb;
        [apply digitsAfter_hasDigit in Eb; congruence |].
      destruct (digitsAfter "" reference) eqn:Ec;
        [apply digitsAfter_hasDigit in Ec; congruence |].
      done. }
  split.
  { intros reference e.
    destruct (digitsAfter "filters/" reference); [done |].
    destruct (digitsAfter "filter_id=" reference); [done |].
    destruct (digitsAfter "" reference); [done |]. by intros [= <-]. }
  repeat split; reflexivity.
Qed.

Lemma resolveFilterReference_spec_witness :
  resolveFilterReference "filters/54321?view=list&page=2" = inr "54321"%string
  ∧ resolveFilterReference "no digits here" = inl InvalidReferenceError.
Proof.
  destruct resolveFilterReference_spec as (Hpath & _ & _ & _ & Hfail & _).
  split.
  - apply Hpath. exists EmptyString, "?view=list&page=2"%string.
    split; [by repeat split |]. intros pre' rest' _ Hlen. cbn in Hlen. lia.
  - apply Hfail. reflexivity.
Defined.

End FilterRegistryFacts.

(** * Further properties of the code *)

(** ** [splitLines] *)

Lemma jsstring_length_ind (P : jsstring → Prop) :
  (∀ s, (∀ t, length t < length s → P t) → P s) → ∀ s, P s.
Proof.
  intros Hstep s. remember (length s) as n eqn:Hn.
  revert s Hn. induction n as [n IH] using lt_wf_ind.
  intros s ->. apply Hstep. intros t Ht. by apply (IH (length t)).
Qed.

Lemma normalizeNewlines_cons c rest :
  normalizeNewlines (c :: rest)
  = if (c =? CR)%N then
      match rest with
      | c' :: rest' =>
          if (c' =? LF)%N then LF :: normalizeNewlines rest'
          else LF :: normalizeNewlines rest
      | [] => [LF]
      end
    else c :: normalizeNewlines rest.
Proof. reflexivity. Qed.

Lemma CR_normalizeNewlines s : CR ∉ normalizeNewlines s.
Proof.
  induction s as [s IH] using jsstring_length_ind.
  destruct s as [| c rest]; [by apply not_elem_of_nil |].
  rewrite normalizeNewlines_cons. destruct (N.eqb_spec c CR) as [-> | Hc].
  - destruct rest as [| c' rest'].
    + by intros [[=] | []%elem_of_nil]%elem_of_cons.
    + destruct (c' =? LF)%N; apply not_elem_of_cons; (split; [done |]);
        apply IH; cbn; lia.
  - apply not_elem_of_cons. split; [done |]. apply IH. cbn. lia.
Qed.

Lemma normalizeNewlines_id s : CR ∉ s → normalizeNewlines s = s.
Proof.
  induction s as [| c rest IH]; [done |].
  intros [Hc Hrest]%not_elem_of_cons. rewrite normalizeNewlines_cons.
  destruct (N.eqb_spec c CR); [congruence |]. by rewrite IH.
Qed.

Lemma normalizeNewlines_idem s :
  normalizeNewlines (normalizeNewlines s) = normalizeNewlines s.
Proof. apply normalizeNewlines_id, CR_normalizeNewlines. Qed.

Lemma normalizeNewlines_nil s : normalizeNewlines s = [] → s = [].
Proof.
  destruct s as [| c rest]; [done |]. rewrite normalizeNewlines_cons.
  destruct (c =? CR)%N; [| done]. destruct rest as [| c' rest']; [done |].
  by destruct (c' =? LF)%N.
Qed.

Lemma splitOnLF_join s current :
  joinWith [LF] (splitOnLF s current) = current ++ s.
Proof.
  revert current. induction s as [| c rest IH]; intros current; cbn.
  - by rewrite app_nil_r.
  - destruct (N.eqb_spec c LF) as [-> | Hc].
    + specialize (IH []). destruct (splitOnLF rest []) as [| p ps] eqn:E.
      * by destruct rest.
      * cbn in *. by rewrite IH.
    + rewrite IH. by rewrite <- app_assoc.
Qed.

Lemma splitOnLF_length s current :
  length (splitOnLF s current) = S (countChar LF s).
Proof.
  unfold countChar. revert current. induction s as [| c rest IH]; intros current; [done |].
  cbn [splitOnLF]. rewrite filter_cons. destruct (N.eqb_spec c LF) as [-> | Hc].
  - rewrite decide_True by done. cbn. by rewrite IH.
  - rewrite decide_False by done. apply IH.
Qed.

Lemma splitOnLF_lines s current (c : N) :
  c ∉ current → (c = LF ∨ c ∉ s) →
  ∀ line, line ∈ splitOnLF s current → c ∉ line.
Proof.
  revert current. induction s as [| d rest IH]; intros current Hcur Hs line; cbn.
  - by intros ->%list_elem_of_singleton.
  - assert (Hrest : c = LF ∨ c ∉ rest).
    { destruct Hs as [| Hs]; [by left | right].
      by apply not_elem_of_cons in Hs as [_ ?]. }
    destruct (N.eqb_spec d LF) as [-> | Hd].
    + intros [-> | Hin]%elem_of_cons; [done |].
      by apply (IH [] (not_elem_of_nil c) Hrest).
    + apply IH; [| done]. rewrite not_elem_of_app, not_elem_of_cons.
      split; [done |]. split; [| apply not_elem_of_nil].
      destruct Hs as [-> | Hs]; [done |]. by apply not_elem_of_cons in Hs as [? _].
Qed.

Lemma splitLines_no_newline raw line :
  line ∈ splitLines raw → (LF ∉ line) ∧ (CR ∉ line).
Proof.
  destruct raw as [| c rest]; [by intros []%elem_of_nil |].
  unfold splitLines. intros Hline. split.
  - eapply splitOnLF_lines; [apply not_elem_of_nil | by left | done].
  - eapply splitOnLF_lines; [apply not_elem_of_nil | | done].
    right. apply CR_normalizeNewlines.
Qed.

(** X1. Joining the lines of [splitLines] with LF gives back the text with
    its line ends normalized, for every text. *)
Theorem splitLines_join (raw : jsstring) :
  joinWith [LF] (splitLines raw) = normalizeNewlines raw.
Proof.
  destruct raw as [| c rest]; [done |]. unfold splitLines.
  by rewrite splitOnLF_join.
Qed.

(** X2. No line of [splitLines] holds a line feed or a carriage return;
    the empty text has no line, any other text has one line more than its
    normalized form has line feeds. *)
Theorem splitLines_lines (raw : jsstring) :
  (∀ line, line ∈ splitLines raw → (LF ∉ line) ∧ (CR ∉ line))
  ∧ length (splitLines raw)
    = (match raw with
       | [] => 0
       | _ :: _ => S (countChar LF (normalizeNewlines raw))
       end).
Proof.
  split; [apply splitLines_no_newline |].
  destruct raw as [| c rest]; [done |]. apply splitOnLF_length.
Qed.

Lemma splitLines_lines_witness :
  let raw := js "ab" ++ [CR; LF] ++ js "cd" ++ [CR] ++ js "ef" in
  splitLines raw = [js "ab"; js "cd"; js "ef"] ∧ (LF ∉ js "cd") ∧ (CR ∉ js "cd").
Proof.
  intros raw. split; [reflexivity |].
  apply (proj1 (splitLines_lines raw) (js "cd")). compute_done.
Defined.

(** X3. CR LF, lone CR and LF line ends give the same lines: splitting a
    text and splitting its normalized form agree. *)
Theorem splitLines_line_ends (raw : jsstring) :
  splitLines (normalizeNewlines raw) = splitLines raw.
Proof.
  unfold splitLines. destruct raw as [| c rest]; [done |].
  destruct (normalizeNewlines (c :: rest)) as [| d rest'] eqn:E.
  - by apply normalizeNewlines_nil in E.
  - by rewrite <- E, normalizeNewlines_idem.
Qed.

(** ** [normalizeLine] without case folding *)

Lemma length_trimStart s : length (trimStart s) ≤ length s.
Proof.
  induction s as [| c s IH]; cbn; [done |].
  destruct (isWhiteSpace c); cbn; lia.
Qed.

Lemma length_String_trim s : length (String_trim s) ≤ length s.
Proof.
  unfold String_trim, trimEnd. rewrite length_reverse.
  etrans; [apply length_trimStart |]. rewrite length_reverse.
  apply length_trimStart.
Qed.

Lemma startsClean_reverse_trimEnd s : startsClean (reverse (trimEnd s)).
Proof. unfold trimEnd. rewrite reverse_involutive. apply startsClean_trimStart. Qed.

(** X4. With case folding off, the normalized line holds no non-breaking
    space and is no longer than the raw line; with [trim] it has no white
    space at either end, without [trim] it has the length of the raw
    line. *)
Theorem normalizeLine_shape (toLowerCase : jsstring → jsstring)
    (line : jsstring) (trimming : bool) :
  let result :=
    normalizeLine toLowerCase line {| trim := trimming; caseInsensitive := false |} in
  (NBSP ∉ result)
  ∧ length result ≤ length line
  ∧ (if trimming
     then startsClean result ∧ startsClean (reverse result)
     else length result = length line).
Proof.
  unfold normalizeLine. destruct trimming; cbn [trim caseInsensitive].
  - split; [| split; [| split]].
    + intros Hin%elem_of_String_trim. by apply NBSP_replaceNbsp in Hin.
    + etrans; [apply length_String_trim |]. unfold replaceNbsp. by rewrite length_fmap.
    + apply startsClean_trimEnd, startsClean_trimStart.
    + apply startsClean_reverse_trimEnd.
  - unfold replaceNbsp at 2 3. rewrite length_fmap.
    split; [apply NBSP_replaceNbsp | done].
Qed.

(** ** The order and the composition of [toUniqueSet] *)

Lemma foldl_add_firstOccurrences (keys acc : list jsstring) :
  foldl JSSet.add acc keys = acc ++ filter (λ y, y ∉ acc) (firstOccurrences keys).
Proof.
  revert acc. induction keys as [| x keys IH]; intros acc; cbn [foldl firstOccurrences].
  - by rewrite filter_nil, app_nil_r.
  - rewrite IH, filter_cons, list_filter_filter. unfold JSSet.add, JSSet.has.
    destruct (decide (x ∈ acc)) as [Hin | Hnin].
    + rewrite bool_decide_eq_true_2 by done.
      rewrite decide_False by (intros Hn; by apply Hn). f_equal.
      apply list_filter_iff. intros y. split; [| tauto].
      intros Hy. split; [done |]. by intros ->.
    + rewrite bool_decide_eq_false_2, decide_True by done.
      rewrite <- app_assoc. cbn. do 2 f_equal.
      apply list_filter_iff. intros y.
      rewrite not_elem_of_app, not_elem_of_cons. split.
      * intros (? & ? & _). done.
      * intros [? ?]. split; [done |]. split; [done | apply not_elem_of_nil].
Qed.

Lemma filter_all {A} (P : A → Prop) `{∀ x, Decision (P x)} (l : list A) :
  (∀ x, x ∈ l → P x) → filter P l = l.
Proof.
  induction l as [| x l IH]; [done |]. intros Hall.
  rewrite filter_cons_True by (apply Hall; by left).
  f_equal. apply IH. intros y Hy. apply Hall. by right.
Qed.

Lemma filter_ext_elem {A} (P Q : A → Prop)
    `{∀ x, Decision (P x)} `{∀ x, Decision (Q x)} (l : list A) :
  (∀ x, x ∈ l → (P x ↔ Q x)) → filter P l = filter Q l.
Proof.
  induction l as [| x l IH]; [done |]. intros Hall.
  rewrite !filter_cons, IH by (intros y Hy; apply Hall; by right).
  destruct (decide (P x)) as [HP | HP], (decide (Q x)) as [HQ | HQ]; try done;
    exfalso; apply (Hall x) in HP || apply (Hall x) in HQ; try done; by left.
Qed.

Lemma loop_set (toLowerCase : jsstring → jsstring) options lines :
  ls_set (foldl (loopBody toLowerCase options) initialState lines)
  = foldl JSSet.add []
      ((λ raw, normalizeLine toLowerCase raw options)
         <$> accepted toLowerCase lines options).
Proof.
  induction lines as [| raw lines IH] using rev_ind; [done |].
  rewrite foldl_app, accepted_snoc. cbn [foldl].
  destruct (decide (normalizeLine toLowerCase raw options ≠ [])) as [Hne | Heq].
  - rewrite loopBody_accept by done. cbn [ls_set].
    by rewrite fmap_app, foldl_app, <- IH.
  - apply dec_stable in Heq. rewrite loopBody_blank by done. by rewrite app_nil_r.
Qed.

Lemma set_firstOccurrences (toLowerCase : jsstring → jsstring) lines options :
  set (toUniqueSet toLowerCase lines options)
  = firstOccurrences
      ((λ raw, normalizeLine toLowerCase raw options)
         <$> accepted toLowerCase lines options).
Proof.
  unfold toUniqueSet, set. rewrite loop_set, foldl_add_firstOccurrences.
  rewrite app_nil_l. apply filter_all. intros y _. apply not_elem_of_nil.
Qed.

(** X5. The set of [toUniqueSet], and with it the keys of the originals
    map, lists the normalized keys of the accepted lines in the order of
    their first occurrence in the input. *)
Theorem toUniqueSet_insertion_order (toLowerCase : jsstring → jsstring)
    (lines : list jsstring) (options : NormalizeOptions) :
  let r := toUniqueSet toLowerCase lines options in
  let keys :=
    (λ raw, normalizeLine toLowerCase raw options)
      <$> accepted toLowerCase lines options in
  set r = firstOccurrences keys
  ∧ JSMap.keys (normalizedToOriginals r) = firstOccurrences keys.
Proof.
  intros r keys.
  assert (Hset : set r = firstOccurrences keys) by apply set_firstOccurrences.
  split; [done |]. rewrite <- Hset.
  apply (inv_keys _ _ _ _ (loop_inv toLowerCase options lines)).
Qed.

(** X6. Processing a text in two parts: for the concatenation of two
    inputs [totalCount] is the sum of the two counts, the keys are the
    union of the two key sets, and the originals of a key are those of the
    first part followed by those of the second. *)
Theorem toUniqueSet_app (toLowerCase : jsstring → jsstring)
    (lines1 lines2 : list jsstring) (options : NormalizeOptions) :
  let r := toUniqueSet toLowerCase (lines1 ++ lines2) options in
  let r1 := toUniqueSet toLowerCase lines1 options in
  let r2 := toUniqueSet toLowerCase lines2 options in
  totalCount r = totalCount r1 + totalCount r2
  ∧ keySet (set r) = keySet (set r1) ∪ keySet (set r2)
  ∧ uniqueCount r ≤ uniqueCount r1 + uniqueCount r2
  ∧ ∀ k, JSMap.get (normalizedToOriginals r) k
         = match JSMap.get (normalizedToOriginals r1) k,
                 JSMap.get (normalizedToOriginals r2) k with
           | Some o1, Some o2 => Some (o1 ++ o2)
           | Some o1, None => Some o1
           | None, Some o2 => Some o2
           | None, None => None
           end.
Proof.
  intros r r1 r2.
  pose proof (loop_inv toLowerCase options (lines1 ++ lines2)) as [Hnd Hel _ Hg Ht _].
  pose proof (loop_inv toLowerCase options lines1) as [Hnd1 Hel1 _ Hg1 Ht1 _].
  pose proof (loop_inv toLowerCase options lines2) as [Hnd2 Hel2 _ Hg2 Ht2 _].
  assert (Hkeys : keySet (set r) = keySet (set r1) ∪ keySet (set r2)).
  { unfold r, r1, r2. rewrite !keySet_toUniqueSet. unfold accepted, keySet.
    by rewrite filter_app, fmap_app, list_to_set_app_L. }
  split; [| split; [done | split]].
  - cbn. rewrite Ht, Ht1, Ht2. unfold accepted. by rewrite filter_app, length_app.
  - change (length (set r) ≤ length (set r1) + length (set r2)).
    rewrite <- !size_keySet by apply NoDup_toUniqueSet. rewrite Hkeys.
    rewrite size_union_alt.
    assert (size (keySet (set r2) ∖ keySet (set r1)) ≤ size (keySet (set r2)));
      [| lia].
    apply subseteq_size. intros k. rewrite elem_of_difference. tauto.
  - intros k.
    change (JSMap.get (normalizedToOriginals r) k)
      with (JSMap.get (ls_map (foldl (loopBody toLowerCase options) initialState
                                 (lines1 ++ lines2))) k).
    change (JSMap.get (normalizedToOriginals r1) k)
      with (JSMap.get (ls_map (foldl (loopBody toLowerCase options) initialState
                                 lines1)) k).
    change (JSMap.get (normalizedToOriginals r2) k)
      with (JSMap.get (ls_map (foldl (loopBody toLowerCase options) initialState
                                 lines2)) k).
    rewrite Hg, Hg1, Hg2. unfold occurrences at 1. rewrite filter_app.
    fold (occurrences toLowerCase lines1 options k).
    fold (occurrences toLowerCase lines2 options k).
    assert (Hin : k ∈ set r ↔ k ∈ set r1 ∨ k ∈ set r2).
    { rewrite <- !elem_of_keySet, Hkeys. apply elem_of_union. }
    assert (Hocc1 : k ≠ [] → k ∉ set r1 → occurrences toLowerCase lines1 options k = []).
    { intros Hne Hk. apply occurrences_nil. intros raw Hraw Hr.
      apply Hk, Hel1. split; [done |]. by exists raw. }
    assert (Hocc2 : k ≠ [] → k ∉ set r2 → occurrences toLowerCase lines2 options k = []).
    { intros Hne Hk. apply occurrences_nil. intros raw Hraw Hr.
      apply Hk, Hel2. split; [done |]. by exists raw. }
    destruct (decide (k ∈ ls_set (foldl _ _ (lines1 ++ lines2)))) as [H | H],
      (decide (k ∈ ls_set (foldl _ _ lines1))) as [H1 | H1],
      (decide (k ∈ ls_set (foldl _ _ lines2))) as [H2 | H2];
      try done; try (exfalso; tauto).
    + apply Hel1 in H1 as H1'. destruct H1' as [Hne _].
      by rewrite (Hocc2 Hne H2), app_nil_r.
    + apply Hel2 in H2 as H2'. destruct H2' as [Hne _].
      by rewrite (Hocc1 Hne H1).
Qed.

(** ** More of lib/compare.ts *)

Section compare_facts.
Context `{Countable T}.
Implicit Types (a b : list T).

Lemma nil_of_no_elem (l : list T) : (∀ x, x ∉ l) → l = [].
Proof. destruct l as [| x l]; [done |]. intros Hno. destruct (Hno x). by left. Qed.

Lemma setDifference_self a : setDifference a a = [].
Proof. apply nil_of_no_elem. intros x [? ?]%elem_of_setDifference. done. Qed.

Lemma setIntersection_self a : NoDup a → setIntersection a a = a.
Proof.
  intros Ha. unfold setIntersection, JSSet.size, JSSet.newSet.
  rewrite Nat.leb_refl, collect_filter by done.
  apply filter_all. intros x Hx. by apply has_true.
Qed.

(** X7. On sets (lists without repetition) the two operations are
    filters that keep the iteration order: the difference filters [a], the
    intersection filters the smaller side, [a] when the sizes are equal. *)
Theorem compare_as_filters a b :
  NoDup a → NoDup b →
  setDifference a b = filter (λ x, x ∉ b) a
  ∧ setIntersection a b
    = (if length a <=? length b
       then filter (λ x, x ∈ b) a else filter (λ x, x ∈ a) b)
  ∧ setDifference a b `sublist_of` a.
Proof.
  intros Ha Hb. split; [by apply setDifference_filter |]. split.
  - unfold setIntersection, JSSet.size, JSSet.newSet.
    destruct (length a <=? length b); rewrite collect_filter by done;
      apply list_filter_iff; intros x; apply has_true.
  - rewrite setDifference_filter by done. apply sublist_filter.
Qed.

(** X8. The edge cases: an empty side gives an empty intersection, the
    difference from the empty set and the intersection of a set with
    itself give the set back, the difference of a set from itself is
    empty. *)
Theorem compare_edge_cases a :
  setIntersection a [] = [] ∧ setIntersection [] a = []
  ∧ setDifference [] a = [] ∧ setDifference a a = []
  ∧ (NoDup a → setDifference a [] = a ∧ setIntersection a a = a).
Proof.
  split; [| split; [| split; [| split]]].
  - apply nil_of_no_elem. intros x [_ []%elem_of_nil]%elem_of_setIntersection.
  - apply nil_of_no_elem. intros x [[]%elem_of_nil _]%elem_of_setIntersection.
  - done.
  - apply setDifference_self.
  - intros Ha. split.
    + rewrite setDifference_filter by done. apply filter_all.
      intros x _. apply not_elem_of_nil.
    + by apply setIntersection_self.
Qed.

(** X9. How the two operations compose: removing from [a] what is only in
    [a] leaves the keys of the intersection, and removing the intersection
    leaves the difference, as the same list when [a] has no repetition. *)
Theorem compare_compose a b :
  keySet (setDifference a (setDifference a b)) = keySet (setIntersection a b)
  ∧ keySet (setDifference a (setIntersection a b)) = keySet (setDifference a b)
  ∧ (NoDup a → setDifference a (setIntersection a b) = setDifference a b).
Proof.
  split; [| split].
  - apply set_eq. intros x.
    rewrite !elem_of_keySet, !elem_of_setDifference, elem_of_setIntersection.
    destruct (decide (x ∈ b)); tauto.
  - apply set_eq. intros x.
    rewrite !elem_of_keySet, !elem_of_setDifference, elem_of_setIntersection.
    tauto.
  - intros Ha. rewrite !setDifference_filter by done.
    apply filter_ext_elem. intros x Hx. rewrite elem_of_setIntersection. tauto.
Qed.

End compare_facts.

Lemma compare_as_filters_witness :
  setDifference [3; 1; 2] [2; 5] = [3; 1]
  ∧ setIntersection [3; 1; 2] [2; 3] = [2; 3]
  ∧ setIntersection [2; 3] [3; 1; 2] = [2; 3].
Proof.
  assert (H1 : NoDup [3; 1; 2]) by compute_done.
  assert (H2 : NoDup [2; 5]) by compute_done.
  assert (H3 : NoDup [2; 3]) by compute_done.
  split; [| split].
  - by rewrite (proj1 (compare_as_filters [3; 1; 2] [2; 5] H1 H2)).
  - by rewrite (proj1 (proj2 (compare_as_filters [3; 1; 2] [2; 3] H1 H3))).
  - by rewrite (proj1 (proj2 (compare_as_filters [2; 3] [3; 1; 2] H3 H1))).
Defined.

Lemma compare_edge_cases_witness :
  setDifference [3; 1; 2] [] = [3; 1; 2] ∧ setIntersection [3; 1; 2] [3; 1; 2] = [3; 1; 2].
Proof.
  apply (compare_edge_cases [3; 1; 2]). compute_done.
Defined.

Lemma compare_compose_witness :
  setDifference [3; 1; 2] (setIntersection [3; 1; 2] [2; 5]) = setDifference [3; 1; 2] [2; 5].
Proof.
  apply (compare_compose [3; 1; 2] [2; 5]). compute_done.
Defined.

(** ** More of the company-checking page *)

Lemma keySet_nil_iff `{Countable T} (l : list T) : l = [] ↔ keySet l = ∅.
Proof.
  split; [by intros -> |]. intros Hempty. apply nil_of_no_elem.
  intros x Hx%elem_of_keySet. rewrite Hempty in Hx. by apply not_elem_of_empty in Hx.
Qed.

(** X10. A result set is empty exactly when the key sets say so: [onlyA]
    is empty iff every key of A is a key of B, [onlyB] likewise, [matches]
    is empty iff the sides share no key. Reconciling an input with itself
    gives its whole set as [matches] and nothing on either side. *)
Theorem reconcile_empty_sets (toLowerCase : jsstring → jsstring)
    (linesA linesB : list jsstring) (options : NormalizeOptions) :
  let a := toUniqueSet toLowerCase linesA options in
  let b := toUniqueSet toLowerCase linesB options in
  let r := reconcile toLowerCase linesA linesB options in
  let same := reconcile toLowerCase linesA linesA options in
  (onlyA r = [] ↔ keySet (set a) ⊆ keySet (set b))
  ∧ (onlyB r = [] ↔ keySet (set b) ⊆ keySet (set a))
  ∧ (matches r = [] ↔ keySet (set a) ## keySet (set b))
  ∧ matches same = set a ∧ onlyA same = [] ∧ onlyB same = [].
Proof.
  intros a b r same.
  split; [| split; [| split; [| split; [| split]]]].
  - rewrite keySet_nil_iff. change (onlyA r) with (setDifference (set a) (set b)).
    rewrite keySet_setDifference. split.
    + intros Hd k Hk. destruct (decide (k ∈ keySet (set b))) as [| Hn]; [done |].
      assert (Hin : k ∈ keySet (set a) ∖ keySet (set b))
        by (by apply elem_of_difference).
      rewrite Hd in Hin. by apply not_elem_of_empty in Hin.
    + intros Hsub. apply set_eq. intros k. rewrite elem_of_difference.
      split; [intros [Hk Hn]; destruct Hn; by apply Hsub |].
      by intros ?%not_elem_of_empty.
  - rewrite keySet_nil_iff. change (onlyB r) with (setDifference (set b) (set a)).
    rewrite keySet_setDifference. split.
    + intros Hd k Hk. destruct (decide (k ∈ keySet (set a))) as [| Hn]; [done |].
      assert (Hin : k ∈ keySet (set b) ∖ keySet (set a))
        by (by apply elem_of_difference).
      rewrite Hd in Hin. by apply not_elem_of_empty in Hin.
    + intros Hsub. apply set_eq. intros k. rewrite elem_of_difference.
      split; [intros [Hk Hn]; destruct Hn; by apply Hsub |].
      by intros ?%not_elem_of_empty.
  - rewrite keySet_nil_iff. change (matches r) with (setIntersection (set a) (set b)).
    rewrite keySet_setIntersection. split.
    + intros Hd. apply elem_of_disjoint. intros k Ha Hb.
      assert (Hin : k ∈ keySet (set a) ∩ keySet (set b))
        by (by apply elem_of_intersection).
      rewrite Hd in Hin. by apply not_elem_of_empty in Hin.
    + intros Hdis. apply set_eq. intros k. rewrite elem_of_intersection.
      split; [intros [Ha Hb]; by destruct (proj1 (elem_of_disjoint _ _) Hdis k) |].
      by intros ?%not_elem_of_empty.
  - change (matches same) with (setIntersection (set a) (set a)).
    apply setIntersection_self, NoDup_toUniqueSet.
  - change (onlyA same) with (setDifference (set a) (set a)).
    apply setDifference_self.
  - change (onlyB same) with (setDifference (set a) (set a)).
    apply setDifference_self.
Qed.

Lemma foldl_snoc_fmap {A B} (step : list B → A → list B) (f : A → B)
    (l : list A) (acc : list B) :
  (∀ out k, step out k = out ++ [f k]) →
  foldl step acc l = acc ++ (f <$> l).
Proof.
  intros Hstep. revert acc. induction l as [| x l IH]; intros acc; cbn.
  - by rewrite app_nil_r.
  - by rewrite IH, Hstep, <- app_assoc.
Qed.

Lemma getOriginalList_fmap toLowerCase textA textB options keys :
  getOriginalList toLowerCase textA textB options keys
  = representative toLowerCase (splitLines textA) (splitLines textB) options <$> keys.
Proof.
  unfold getOriginalList.
  apply (foldl_snoc_fmap _
           (representative toLowerCase (splitLines textA) (splitLines textB) options)).
  intros out k. unfold representative.
  destruct (JSMap.get (normalizedToOriginals
                         (toUniqueSet toLowerCase (splitLines textA) options)) k);
    [done |].
  by destruct (JSMap.get (normalizedToOriginals
                            (toUniqueSet toLowerCase (splitLines textB) options)) k).
Qed.

Lemma head_occurrences toLowerCase lines options k raw :
  head (occurrences toLowerCase lines options k) = Some raw →
  raw ∈ lines ∧ normalizeLine toLowerCase raw options = k
  ∧ Some raw = snd <$> list_find (λ x, normalizeLine toLowerCase x options = k) lines.
Proof.
  intros Hhead. unfold occurrences in *.
  assert (Hin : raw ∈ filter (λ x, normalizeLine toLowerCase x options = k) lines).
  { destruct (filter _ lines) as [| y l]; [done |]. injection Hhead as ->. by left. }
  apply list_elem_of_filter in Hin as [Hr Hin].
  split; [done |]. split; [done |]. by rewrite <- head_filter_list_find.
Qed.

Lemma get_toUniqueSet toLowerCase lines options k :
  JSMap.get (normalizedToOriginals (toUniqueSet toLowerCase lines options)) k
  = if decide (k ∈ set (toUniqueSet toLowerCase lines options))
    then Some (occurrences toLowerCase lines options k) else None.
Proof. apply (inv_get _ _ _ _ (loop_inv toLowerCase options lines)). Qed.

Lemma elem_of_set_toUniqueSet toLowerCase lines options k :
  k ∈ set (toUniqueSet toLowerCase lines options)
  ↔ k ≠ [] ∧ ∃ raw, raw ∈ lines ∧ normalizeLine toLowerCase raw options = k.
Proof. apply (inv_elem _ _ _ _ (loop_inv toLowerCase options lines)). Qed.

Lemma head_occurrences_is_Some toLowerCase lines options k :
  k ∈ set (toUniqueSet toLowerCase lines options) →
  is_Some (head (occurrences toLowerCase lines options k)).
Proof.
  intros (_ & raw & Hin & Hr)%elem_of_set_toUniqueSet.
  assert (Hocc : raw ∈ occurrences toLowerCase lines options k)
    by (by apply list_elem_of_filter).
  destruct (occurrences toLowerCase lines options k); [by apply elem_of_nil in Hocc |].
  by eexists.
Qed.

(** The representative of a key is always defined: a raw line of side A
    that normalizes to the key when side A has the key, else such a line of
    side B, else the key itself. *)
Lemma representative_spec toLowerCase linesA linesB options k :
  let a := toUniqueSet toLowerCase linesA options in
  let b := toUniqueSet toLowerCase linesB options in
  let first lines :=
    snd <$> list_find (λ x, normalizeLine toLowerCase x options = k) lines in
  ∃ raw,
    representative toLowerCase linesA linesB options k = Some raw
    ∧ (k ∈ set a →
       raw ∈ linesA ∧ normalizeLine toLowerCase raw options = k
       ∧ Some raw = first linesA)
    ∧ (k ∉ set a → k ∈ set b →
       raw ∈ linesB ∧ normalizeLine toLowerCase raw options = k
       ∧ Some raw = first linesB)
    ∧ (k ∉ set a → k ∉ set b → raw = k).
Proof.
  intros a b first. unfold representative. rewrite !get_toUniqueSet.
  fold a b. destruct (decide (k ∈ set a)) as [Ha | Ha].
  - destruct (head_occurrences_is_Some _ _ _ _ Ha) as [raw Hraw].
    exists raw. split; [done |]. split; [| done].
    intros _. by apply head_occurrences.
  - destruct (decide (k ∈ set b)) as [Hb | Hb].
    + destruct (head_occurrences_is_Some _ _ _ _ Hb) as [raw Hraw].
      exists raw. split; [done |]. split; [done |]. split; [| done].
      intros _ _. by apply head_occurrences.
    + exists k. done.
Qed.

(** X11. [getOriginalList] gives one entry per key, never [undefined]: for
    a key of side A the first raw line of text A that normalizes to it, for
    a key of side B only the first such line of text B, for any other key
    the key itself. *)
Theorem getOriginalList_entries (toLowerCase : jsstring → jsstring)
    (textA textB : jsstring) (options : NormalizeOptions) (keys : list jsstring) :
  let linesA := splitLines textA in
  let linesB := splitLines textB in
  let a := toUniqueSet toLowerCase linesA options in
  let b := toUniqueSet toLowerCase linesB options in
  let out := getOriginalList toLowerCase textA textB options keys in
  length out = length keys
  ∧ ∀ i k, keys !! i = Some k →
      ∃ raw,
        out !! i = Some (Some raw)
        ∧ (k ∈ set a →
           raw ∈ linesA ∧ normalizeLine toLowerCase raw options = k
           ∧ Some raw
             = snd <$> list_find (λ x, normalizeLine toLowerCase x options = k) linesA)
        ∧ (k ∉ set a → k ∈ set b →
           raw ∈ linesB ∧ normalizeLine toLowerCase raw options = k
           ∧ Some raw
             = snd <$> list_find (λ x, normalizeLine toLowerCase x options = k) linesB)
        ∧ (k ∉ set a → k ∉ set b → raw = k).
Proof.
  intros linesA linesB a b out. unfold out. rewrite getOriginalList_fmap.
  split; [by rewrite length_fmap |].
  intros i k Hk.
  destruct (representative_spec toLowerCase linesA linesB options k)
    as (raw & Hrep & Hcases).
  exists raw. split; [| exact Hcases].
  by rewrite list_lookup_fmap, Hk, <- Hrep.
Qed.

Lemma getOriginalList_entries_witness :
  let textA := js "Acme Inc" ++ [LF] ++ js "ACME INC" ++ [LF] ++ js "Globex" in
  let textB := js "acme inc" ++ [LF] ++ js "Initech" in
  let options := {| trim := true; caseInsensitive := true |} in
  ∃ raw,
    getOriginalList asciiToLowerCase textA textB options [js "globex"; js "acme inc"] !! 1
    = Some (Some raw)
    ∧ raw ∈ splitLines textA
    ∧ normalizeLine asciiToLowerCase raw options = js "acme inc".
Proof.
  intros textA textB options.
  destruct (getOriginalList_entries asciiToLowerCase textA textB options
              [js "globex"; js "acme inc"]) as [_ Hentries].
  destruct (Hentries 1 (js "acme inc") eq_refl) as (raw & Hout & HA & _).
  exists raw. split; [exact Hout |].
  assert (Hin : js "acme inc"
                ∈ set (toUniqueSet asciiToLowerCase (splitLines textA) options)).
  { vm_compute. apply elem_of_cons. by left. }
  destruct (HA Hin) as (? & ? & _). by split.
Defined.

(** ** Copy and paste *)

Lemma splitOnLF_app_no_LF p s current :
  LF ∉ p → splitOnLF (p ++ s) current = splitOnLF s (current ++ p).
Proof.
  revert current. induction p as [| c p IH]; intros current Hp; cbn.
  - by rewrite app_nil_r.
  - apply not_elem_of_cons in Hp as [Hc Hp].
    destruct (N.eqb_spec c LF); [congruence |].
    rewrite IH by done. by rewrite <- app_assoc.
Qed.

Lemma splitOnLF_joinWith ps p current :
  LF ∉ p → Forall (λ q, LF ∉ q) ps →
  splitOnLF (joinWith [LF] (p :: ps)) current = (current ++ p) :: ps.
Proof.
  intros Hp Hps. revert p current Hp.
  induction Hps as [| q qs Hq _ IH]; intros p current Hp.
  - cbn. rewrite <- (app_nil_r p) at 1. rewrite splitOnLF_app_no_LF by done. done.
  - change (joinWith [LF] (p :: q :: qs)) with (p ++ [LF] ++ joinWith [LF] (q :: qs)).
    rewrite splitOnLF_app_no_LF by done. cbn [app splitOnLF].
    rewrite N.eqb_refl. by rewrite IH.
Qed.

Lemma CR_joinWith raws : Forall (λ raw, CR ∉ raw) raws → CR ∉ joinWith [LF] raws.
Proof.
  induction 1 as [| raw raws Hraw Hraws IH]; [apply not_elem_of_nil |].
  destruct raws as [| q qs]; [done |].
  change (joinWith [LF] (raw :: q :: qs)) with (raw ++ [LF] ++ joinWith [LF] (q :: qs)).
  rewrite !not_elem_of_app. split; [done |]. split; [| done].
  by intros [[=] | []%elem_of_nil]%elem_of_cons.
Qed.

(** Lines joined with LF split back into the same lines. *)
Lemma splitLines_joinWith raws :
  Forall (λ raw, raw ≠ [] ∧ (LF ∉ raw) ∧ (CR ∉ raw)) raws →
  splitLines (joinWith [LF] raws) = raws.
Proof.
  intros Hraws. destruct raws as [| p ps]; [done |].
  assert (Hcr : CR ∉ joinWith [LF] (p :: ps)).
  { apply CR_joinWith. eapply Forall_impl; [done |]. by intros raw (_ & _ & ?). }
  assert (Hlf : Forall (λ raw, LF ∉ raw) (p :: ps)).
  { eapply Forall_impl; [done |]. by intros raw (_ & ? & _). }
  apply Forall_cons in Hlf as [Hp Hps].
  apply Forall_cons in Hraws as [(Hne & _ & _) _].
  unfold splitLines. destruct (joinWith [LF] (p :: ps)) as [| c rest] eqn:E.
  - destruct p; [done |]. destruct ps; cbn in E; discriminate E.
  - cbv match. rewrite normalizeNewlines_id by done. rewrite <- E.
    by apply splitOnLF_joinWith.
Qed.

Lemma firstOccurrences_NoDup keys : NoDup keys → firstOccurrences keys = keys.
Proof.
  induction 1 as [| x keys Hx _ IH]; [done |]. cbn. rewrite IH. f_equal.
  apply filter_all. intros y Hy ->. done.
Qed.

Section copy_paste.

Variable toLowerCase : jsstring → jsstring.
Hypothesis toLowerCase_empty : toLowerCase [] = [].

Local Abbreviation normalize options := (λ raw, normalizeLine toLowerCase raw options).

Lemma representatives_of_keys linesA linesB options keys :
  let a := toUniqueSet toLowerCase linesA options in
  let b := toUniqueSet toLowerCase linesB options in
  Forall (λ k, k ∈ set a ∨ k ∈ set b) keys →
  let raws := default [] <$> (representative toLowerCase linesA linesB options <$> keys) in
  normalize options <$> raws = keys
  ∧ Forall (λ raw, raw ≠ [] ∧ normalizeLine toLowerCase raw options ≠ []
                   ∧ (raw ∈ linesA ∨ raw ∈ linesB)) raws.
Proof.
  intros a b Hkeys. cbn zeta. induction Hkeys as [| k keys Hk _ [IH1 IH2]]; [done |].
  destruct (representative_spec toLowerCase linesA linesB options k)
    as (raw & Hrep & HA & HB & _).
  rewrite !fmap_cons, Hrep. cbn [default].
  assert (Hraw : normalizeLine toLowerCase raw options = k
                 ∧ (raw ∈ linesA ∨ raw ∈ linesB)).
  { destruct (decide (k ∈ set a)) as [Ha | Ha].
    - destruct (HA Ha) as (? & ? & _). tauto.
    - destruct Hk as [| Hb]; [done |]. destruct (HB Ha Hb) as (? & ? & _). tauto. }
  destruct Hraw as [Hnorm Hin].
  assert (Hne : k ≠ []).
  { destruct Hk as [Hk | Hk]; by apply elem_of_set_toUniqueSet in Hk as [? _]. }
  change (id raw) with raw.
  split; [f_equal; [exact Hnorm | exact IH1] |].
  apply Forall_cons. split; [| done]. split; [| split; [congruence | done]].
  intros ->. apply Hne. rewrite <- Hnorm.
  apply (normalizeLine_blank toLowerCase toLowerCase_empty).
  destruct (trim options); [constructor | done].
Qed.

Lemma copy_paste_keys textA textB options keys :
  let a := toUniqueSet toLowerCase (splitLines textA) options in
  let b := toUniqueSet toLowerCase (splitLines textB) options in
  NoDup keys → Forall (λ k, k ∈ set a ∨ k ∈ set b) keys →
  let pasted :=
    toUniqueSet toLowerCase
      (splitLines (copyText toLowerCase textA textB options keys)) options in
  set pasted = keys ∧ totalCount pasted = length keys
  ∧ uniqueCount pasted = length keys.
Proof.
  intros a b Hnd Hkeys. cbn zeta. unfold copyText. rewrite getOriginalList_fmap.
  destruct (representatives_of_keys (splitLines textA) (splitLines textB) options keys
              Hkeys) as [Hnorm Hraws].
  set (raws := default [] <$> _) in *.
  rewrite splitLines_joinWith.
  2:{ eapply Forall_impl; [exact Hraws |]. intros raw (Hne & _ & Hin). split; [done |].
      destruct Hin as [Hin | Hin]; by apply splitLines_no_newline in Hin. }
  assert (Hacc : accepted toLowerCase raws options = raws).
  { apply filter_all. intros raw Hraw.
    by eapply Forall_forall in Hraws as (_ & ? & _). }
  assert (Hset : set (toUniqueSet toLowerCase raws options) = keys).
  { by rewrite set_firstOccurrences, Hacc, Hnorm, firstOccurrences_NoDup. }
  split; [done |]. split.
  - cbn. rewrite (inv_total _ _ _ _ (loop_inv toLowerCase options raws)), Hacc.
    subst raws. by rewrite !length_fmap.
  - change (length (set (toUniqueSet toLowerCase raws options)) = length keys).
    by rewrite Hset.
Qed.

(** X12. Copy and paste: the text [copy] puts on the clipboard for any of
    the three result sets, pasted back as an input, is read as exactly that
    set of keys, in the same order, one line per key. *)
Theorem copy_paste_round_trip (textA textB : jsstring) (options : NormalizeOptions) :
  let r := results toLowerCase textA textB options in
  ∀ keys, keys = matches r ∨ keys = onlyA r ∨ keys = onlyB r →
    let pasted :=
      toUniqueSet toLowerCase
        (splitLines (copyText toLowerCase textA textB options keys)) options in
    set pasted = keys ∧ totalCount pasted = length keys
    ∧ uniqueCount pasted = length keys.
Proof.
  intros r keys Hkeys. apply copy_paste_keys.
  - destruct Hkeys as [-> | [-> | ->]];
      [apply NoDup_setIntersection | apply NoDup_setDifference ..].
  - apply Forall_forall. intros k Hk.
    destruct Hkeys as [-> | [-> | ->]].
    + apply elem_of_setIntersection in Hk as [? _]. by left.
    + apply elem_of_setDifference in Hk as [? _]. by left.
    + apply elem_of_setDifference in Hk as [? _]. by right.
Qed.

End copy_paste.

(** ** The network upload page *)

Lemma splitOnAcc_pieces sep s current (c : N) :
  c ∉ current → (c = sep ∨ c ∉ s) →
  ∀ piece, piece ∈ splitOnAcc sep s current → c ∉ piece.
Proof.
  revert current. induction s as [| d rest IH]; intros current Hcur Hs piece; cbn.
  - by intros ->%list_elem_of_singleton.
  - assert (Hrest : c = sep ∨ c ∉ rest).
    { destruct Hs as [| Hs]; [by left | right].
      by apply not_elem_of_cons in Hs as [_ ?]. }
    destruct (N.eqb_spec d sep) as [-> | Hd].
    + intros [-> | Hin]%elem_of_cons; [done |].
      by apply (IH [] (not_elem_of_nil c) Hrest).
    + apply IH; [| done]. rewrite not_elem_of_app, not_elem_of_cons.
      split; [done |]. split; [| apply not_elem_of_nil].
      destruct Hs as [-> | Hs]; [done |]. by apply not_elem_of_cons in Hs as [? _].
Qed.

Lemma splitOnAcc_length sep s current :
  length (splitOnAcc sep s current) = S (countChar sep s).
Proof.
  unfold countChar. revert current. induction s as [| c rest IH]; intros current; [done |].
  cbn [splitOnAcc]. rewrite filter_cons. destruct (N.eqb_spec c sep) as [-> | Hc].
  - rewrite decide_True by done. cbn. by rewrite IH.
  - rewrite decide_False by done. apply IH.
Qed.

Lemma split_pieces sep s (c : N) piece :
  piece ∈ split sep s → (c = sep ∨ c ∉ s) → c ∉ piece.
Proof.
  intros Hin Hc. by eapply splitOnAcc_pieces; [apply not_elem_of_nil | |].
Qed.

Lemma split_length sep s : length (split sep s) = S (countChar sep s).
Proof. apply splitOnAcc_length. Qed.

Lemma elem_of_removeQuotes s c : c ∈ removeQuotes s → c ∈ s ∧ c ≠ QUOTE.
Proof. unfold removeQuotes. rewrite list_elem_of_filter. tauto. Qed.

Lemma countChar_cons c d s :
  countChar c (d :: s) = (if decide (d = c) then 1 else 0) + countChar c s.
Proof. unfold countChar. rewrite filter_cons. by destruct (decide (d = c)). Qed.

(** Every piece of a split comes from the text: the pieces together hold no
    more separators of another kind than the text does. *)
Lemma splitOnAcc_tail_length sep s current :
  length (tail (splitOnAcc sep s current)) = countChar sep s.
Proof.
  pose proof (splitOnAcc_length sep s current) as Hlen.
  destruct (splitOnAcc sep s current); cbn in *; lia.
Qed.

(** X13. Reading a CSV file: the popup data are always set (an empty file
    gives the single header ''); there is at least one header, and no
    header holds a double quote, a comma or a line feed; there are at most
    as many rows as the text has line feeds, no row is empty, and every
    cell is trimmed and holds no comma and no line feed. *)
Theorem handleFileUpload_shape (text : jsstring) :
  ∃ headers rows,
    handleFileUpload text = Some (headers, rows)
    ∧ headers ≠ []
    ∧ Forall (λ header, (QUOTE ∉ header) ∧ (COMMA ∉ header) ∧ (LF ∉ header)) headers
    ∧ length rows ≤ countChar LF text
    ∧ Forall (λ row,
                row ≠ []
                ∧ Forall (λ cell, String_trim cell = cell
                                  ∧ (COMMA ∉ cell) ∧ (LF ∉ cell)) row) rows.
Proof.
  unfold handleFileUpload.
  pose proof (splitOnAcc_tail_length LF text []) as Htail.
  assert (Hlines : ∀ line, line ∈ split LF text → LF ∉ line).
  { intros line Hline. eapply split_pieces; [done | by left]. }
  unfold split in *. destruct (splitOnAcc LF text []) as [| first others] eqn:E.
  { pose proof (splitOnAcc_length LF text []) as Hlen. by rewrite E in Hlen. }
  cbn [tail] in Htail. eexists _, _. split; [done |].
  split; [| split; [| split]].
  - pose proof (splitOnAcc_length COMMA first []) as Hlen.
    intros Hnil%fmap_nil_inv. fold (split COMMA first) in Hnil.
    unfold split in Hnil. by rewrite Hnil in Hlen.
  - apply Forall_fmap, Forall_forall. intros header Hheader. cbn.
    assert (Hlf : LF ∉ header).
    { eapply split_pieces; [done |]. right. apply Hlines. by left. }
    assert (Hcomma : COMMA ∉ header) by (eapply split_pieces; [done | by left]).
    split; [| split].
    + by intros [_ ?]%elem_of_removeQuotes.
    + by intros [?%elem_of_String_trim _]%elem_of_removeQuotes.
    + by intros [?%elem_of_String_trim _]%elem_of_removeQuotes.
  - rewrite length_fmap, <- Htail. apply length_filter.
  - apply Forall_fmap, Forall_forall. intros line [_ Hline]%list_elem_of_filter. cbn.
    split.
    + pose proof (splitOnAcc_length COMMA line []) as Hlen.
      intros Hnil%fmap_nil_inv. unfold split in Hnil. by rewrite Hnil in Hlen.
    + apply Forall_fmap, Forall_forall. intros cell Hcell. cbn.
      split; [apply String_trim_idem |]. split.
      * intros Hin%elem_of_String_trim. revert Hin.
        eapply split_pieces; [done | by left].
      * intros Hin%elem_of_String_trim. revert Hin.
        eapply split_pieces; [done |]. right. apply Hlines. by right.
Qed.

Lemma removeQuotes_no_quote s : QUOTE ∉ removeQuotes s.
Proof. by intros [_ ?]%elem_of_removeQuotes. Qed.

Lemma indexOfFrom_absent i l h : h ∉ l → indexOfFrom i l h = (-1)%Z.
Proof.
  revert i. induction l as [| x l IH]; intros i Hh; [done |].
  apply not_elem_of_cons in Hh as [Hx Hl]. cbn.
  rewrite decide_False by done. by apply IH.
Qed.

Lemma indexOfFrom_present i l h :
  h ∈ l →
  ∃ n, indexOfFrom i l h = (i + Z.of_nat n)%Z ∧ l !! n = Some h
       ∧ ∀ m, m < n → l !! m ≠ Some h.
Proof.
  revert i. induction l as [| x l IH]; intros i Hh; [by apply elem_of_nil in Hh |].
  cbn. destruct (decide (x = h)) as [-> | Hx].
  - exists 0. split; [lia |]. split; [done |]. intros m Hm. lia.
  - apply elem_of_cons in Hh as [-> | Hh]; [done |].
    destruct (IH (i + 1)%Z Hh) as (n & Hi & Hn & Hfirst).
    exists (S n). split; [lia |]. split; [done |].
    intros [| m] Hm; cbn; [congruence |]. apply Hfirst. lia.
Qed.

Lemma processedRows_shape (headers : list jsstring) (rows : list (list jsstring))
    (companyHeader emailHeader : jsstring) :
  let data := processedRows headers rows companyHeader emailHeader in
  let field header row :=
    match list_find (λ h, h = header) headers with
    | Some (column, _) => String_trim (removeQuotes (default [] (row !! column)))
    | None => []
    end in
  data
  = filter (λ item, company item ≠ [] ∨ email item ≠ [])
      ((λ row, {| company := field companyHeader row;
                  email := field emailHeader row |}) <$> rows)
  ∧ length data ≤ length rows
  ∧ Forall (λ item,
              (company item ≠ [] ∨ email item ≠ [])
              ∧ (QUOTE ∉ company item) ∧ (QUOTE ∉ email item)
              ∧ String_trim (company item) = company item
              ∧ String_trim (email item) = email item) data.
Proof.
  intros data field.
  assert (Hfield : ∀ header row,
            String_trim (removeQuotes (cellAt row (indexOf headers header)))
            = field header row).
  { intros header row. unfold field, indexOf, cellAt.
    destruct (list_find (λ h, h = header) headers) as [[column h] |] eqn:E.
    - apply list_find_Some in E as (Hcol & -> & Hfirst).
      destruct (indexOfFrom_present 0 headers header) as (n & Hi & Hn & Hmin).
      { by eapply list_elem_of_lookup_2. }
      rewrite Hi. assert (n = column) as ->.
      { destruct (Nat.lt_trichotomy n column) as [Hlt | [-> | Hgt]]; [| done |].
        - destruct (Hfirst n header Hn Hlt). done.
        - by destruct (Hmin column Hgt). }
      destruct (0 + Z.of_nat column <? 0)%Z eqn:Hneg; [lia |].
      by rewrite Z.add_0_l, Nat2Z.id.
    - apply list_find_None in E. rewrite indexOfFrom_absent; [done |].
      intros Hin. by eapply Forall_forall in E. }
  assert (Hdata : data
    = filter (λ item, company item ≠ [] ∨ email item ≠ [])
        ((λ row, {| company := field companyHeader row;
                    email := field emailHeader row |}) <$> rows)).
  { unfold data, processedRows. f_equal. apply list_fmap_ext.
    intros _ row _. by rewrite !Hfield. }
  split; [done |]. split.
  - rewrite Hdata. etrans; [apply length_filter |]. by rewrite length_fmap.
  - unfold data, processedRows. apply Forall_forall.
    intros item [Hkeep (row & -> & _)%list_elem_of_fmap]%list_elem_of_filter.
    cbn in *. split; [done |].
    split; [intros Hin%elem_of_String_trim; by apply removeQuotes_no_quote in Hin |].
    split; [intros Hin%elem_of_String_trim; by apply removeQuotes_no_quote in Hin |].
    split; apply String_trim_idem.
Qed.

(** X14. The data submitted. The handler throws, and sends nothing, exactly
    when a mapped header is missing or is the empty string. Otherwise the
    rows are kept in order and a row is dropped exactly when both of its
    fields come out empty; no field holds a double quote and every field is
    trimmed; a mapped header is read from the first column of that name, a
    row too short for the column gives the empty field, and so does a
    header that is not in the file. *)
Theorem processedData_shape (headers : list jsstring) (rows : list (list jsstring))
    (companyHeader emailHeader : option jsstring) :
  (processedData headers rows companyHeader emailHeader = None
   ↔ companyHeader = None ∨ companyHeader = Some []
     ∨ emailHeader = None ∨ emailHeader = Some [])
  ∧ ∀ companyName emailName,
      companyHeader = Some companyName → emailHeader = Some emailName →
      companyName ≠ [] → emailName ≠ [] →
      let field header row :=
        match list_find (λ h, h = header) headers with
        | Some (column, _) => String_trim (removeQuotes (default [] (row !! column)))
        | None => []
        end in
      ∃ data,
        processedData headers rows companyHeader emailHeader = Some data
        ∧ data
          = filter (λ item, company item ≠ [] ∨ email item ≠ [])
              ((λ row, {| company := field companyName row;
                          email := field emailName row |}) <$> rows)
        ∧ length data ≤ length rows
        ∧ Forall (λ item,
                    (company item ≠ [] ∨ email item ≠ [])
                    ∧ (QUOTE ∉ company item) ∧ (QUOTE ∉ email item)
                    ∧ String_trim (company item) = company item
                    ∧ String_trim (email item) = email item) data.
Proof.
  split.
  - unfold processedData, headerMissing.
    destruct companyHeader as [c |], emailHeader as [e |]; cbn.
    + destruct (decide (c = [])) as [-> | Hc], (decide (e = [])) as [-> | He].
      * rewrite !bool_decide_eq_true_2 by done. split; [tauto | done].
      * rewrite bool_decide_eq_true_2 by done. split; [tauto | done].
      * rewrite bool_decide_eq_false_2, bool_decide_eq_true_2 by done.
        split; [tauto | done].
      * rewrite !bool_decide_eq_false_2 by done. cbn.
        split; [done |]. intros [| [[=] | [| [=]]]]; done.
    + destruct (bool_decide (c = [])); split; (tauto || done).
    + split; [tauto | done].
    + split; [tauto | done].
  - intros companyName emailName -> -> Hc He field.
    exists (processedRows headers rows companyName emailName).
    split; [| apply processedRows_shape].
    unfold processedData, headerMissing. by rewrite !bool_decide_eq_false_2 by done.
Qed.

Lemma processedData_shape_witness :
  let headers := [js "Name"; js "Company"; js "Email"] in
  let rows := [[js "Ann"; js "Acme"; js "ann@acme.test"]; [js "Bob"; []; []]] in
  processedData headers rows (Some (js "Company")) (Some (js "Email"))
  = Some [{| company := js "Acme"; email := js "ann@acme.test" |}]
  ∧ processedData headers rows (Some []) (Some (js "Email")) = None
  ∧ ∃ data,
      processedData headers rows (Some (js "Company")) (Some (js "Email")) = Some data
      ∧ length data ≤ length rows.
Proof.
  intros headers rows. split; [reflexivity |]. split; [reflexivity |].
  destruct (processedData_shape headers rows (Some (js "Company")) (Some (js "Email")))
    as [_ Hshape].
  destruct (Hshape (js "Company") (js "Email") eq_refl eq_refl) as (data & Hd & _ & Hlen & _);
    [done | done |].
  by exists data.
Defined.

(** ** [formatNumber] *)

Lemma isDigitUnit_not_DOT c : isDigitUnit c = true → c ≠ DOT.
Proof.
  unfold isDigitUnit, DOT. intros [H1 _]%andb_true_iff ->. by vm_compute in H1.
Qed.

Lemma isWordUnit_digit c : isDigitUnit c = true → isWordUnit c = true.
Proof. unfold isWordUnit. by intros ->. Qed.

Lemma digitRun_digits s : Forall (λ c, isDigitUnit c = true) s → digitRun s = length s.
Proof. induction 1 as [| c s Hc _ IH]; cbn; [done |]. by rewrite Hc, IH. Qed.

Lemma digitsOfUint_digits d : Forall (λ c, isDigitUnit c = true) (digitsOfUint d).
Proof. induction d; cbn; by constructor. Qed.

Lemma Number_toString_nonempty num : Number_toString num ≠ [].
Proof.
  unfold Number_toString. destruct num as [| p]; [done |]. cbn.
  pose proof (DecimalPos.Unsigned.to_uint_nonnil p) as Hp.
  by destruct (Pos.to_uint p).
Qed.

Lemma insertDots_remove prev s :
  DOT ∉ s → filter (λ c, c ≠ DOT) (insertDots prev s) = s.
Proof.
  revert prev. induction s as [| c s IH]; intros prev Hs; [done |].
  apply not_elem_of_cons in Hs as [Hc Hs]. cbn [insertDots].
  rewrite filter_app, filter_cons_True, IH by done.
  destruct (thousandsGap prev (c :: s)); [| done].
  by rewrite filter_cons_False, filter_nil by (intros Hd; by apply Hd).
Qed.

(** After a digit, a dot goes before the digits [s] exactly when their
    number is a positive multiple of three. *)
Lemma thousandsGap_digits d c s :
  isDigitUnit d = true → Forall (λ c, isDigitUnit c = true) (c :: s) →
  thousandsGap (Some d) (c :: s) = (S (length s) mod 3 =? 0).
Proof.
  intros Hd Hs. unfold thousandsGap. rewrite (digitRun_digits _ Hs).
  apply Forall_cons in Hs as [Hc _].
  by rewrite !isWordUnit_digit by done.
Qed.

Lemma mod3_succ n :
  (S n mod 3 = 0 ∧ n mod 3 = 2) ∨ (S n mod 3 ≠ 0 ∧ S n mod 3 = S (n mod 3)).
Proof.
  pose proof (Nat.div_mod_eq n 3). pose proof (Nat.div_mod_eq (S n) 3).
  pose proof (Nat.mod_upper_bound n 3). pose proof (Nat.mod_upper_bound (S n) 3).
  lia.
Qed.

Lemma splitOnAcc_sep sep s current :
  splitOnAcc sep (sep :: s) current = current :: splitOnAcc sep s [].
Proof. cbn. by rewrite N.eqb_refl. Qed.

Lemma splitOnAcc_other sep c s current :
  c ≠ sep → splitOnAcc sep (c :: s) current = splitOnAcc sep s (current ++ [c]).
Proof. intros Hc. cbn. by destruct (N.eqb_spec c sep). Qed.

Lemma split_insertDots d s current :
  isDigitUnit d = true → Forall (λ c, isDigitUnit c = true) s →
  ∃ others,
    splitOnAcc DOT (insertDots (Some d) s) current
    = (current ++ take (length s mod 3) s) :: others
    ∧ Forall (λ group, length group = 3) others
    ∧ concat others = drop (length s mod 3) s.
Proof.
  intros Hd Hs. revert d current Hd.
  induction Hs as [| c s Hc Hs IH]; intros d current Hd.
  - exists []. cbn. by rewrite app_nil_r.
  - cbn [insertDots]. rewrite thousandsGap_digits by (done || by constructor).
    assert (Hdot : c ≠ DOT) by (by apply isDigitUnit_not_DOT).
    cbn [length].
    destruct (mod3_succ (length s)) as [[Hmod Hrest] | [Hmod Hrest]].
    + rewrite Hmod. cbn [Nat.eqb app].
      destruct (IH c [c] Hc) as (others & Hsplit & Hthree & Hconcat).
      exists ((c :: take 2 s) :: others).
      rewrite splitOnAcc_sep, splitOnAcc_other, app_nil_l, Hsplit, Hrest by done.
      cbn [take app]. rewrite app_nil_r.
      split; [done |]. split.
      * apply Forall_cons. split; [| done]. cbn [length]. rewrite length_take.
        pose proof (Nat.Div0.mod_le (length s) 3). lia.
      * cbn [concat drop app]. rewrite Hconcat, Hrest. by rewrite take_drop.
    + destruct (S (length s) mod 3 =? 0) eqn:E; [by apply Nat.eqb_eq in E |].
      destruct (IH c (current ++ [c]) Hc) as (others & Hsplit & Hthree & Hconcat).
      exists others. rewrite app_nil_l, splitOnAcc_other, Hsplit, Hrest by done.
      cbn [take drop]. rewrite <- app_assoc.
      split; [done |]. split; [done |]. done.
Qed.

Section formatNumber_facts.

Variable num : N.

(** The counts the page formats are integers that JavaScript holds and
    prints exactly. *)
Hypothesis num_safe : (num < 2 ^ 53)%N.

(** X15. [formatNumber] only adds dots: taking them out of the result
    gives the decimal digits of the number, which are not empty. *)
Theorem formatNumber_digits :
  filter (λ c, c ≠ DOT) (formatNumber num) = Number_toString num
  ∧ Number_toString num ≠ []
  ∧ Forall (λ c, isDigitUnit c = true) (Number_toString num).
Proof using num_safe.
  split; [| split].
  - apply insertDots_remove. intros Hin.
    pose proof (digitsOfUint_digits (N.to_uint num)) as Hdigits.
    eapply Forall_forall in Hdigits; [| exact Hin].
    by apply isDigitUnit_not_DOT in Hdigits.
  - apply Number_toString_nonempty.
  - apply digitsOfUint_digits.
Qed.

(** X16. The dots of [formatNumber] cut the digits into groups: a first
    group of one to three digits, then groups of exactly three, which
    together are the digits of the number. *)
Theorem formatNumber_groups :
  ∃ first others,
    split DOT (formatNumber num) = first :: others
    ∧ 1 ≤ length first ≤ 3
    ∧ Forall (λ group, length group = 3) others
    ∧ first ++ concat others = Number_toString num.
Proof using num_safe.
  unfold formatNumber, split.
  pose proof (digitsOfUint_digits (N.to_uint num)) as Hdigits.
  pose proof (Number_toString_nonempty num) as Hne.
  fold (Number_toString num) in Hdigits.
  destruct (Number_toString num) as [| c s]; [done |].
  apply Forall_cons in Hdigits as [Hc Hs].
  destruct (split_insertDots c s [c] Hc Hs) as (others & Hsplit & Hthree & Hconcat).
  exists ([c] ++ take (length s mod 3) s), others.
  cbn [insertDots]. unfold thousandsGap at 1. rewrite isWordUnit_digit by done.
  cbn [eqb andb app].
  rewrite splitOnAcc_other, app_nil_l, Hsplit by (by apply isDigitUnit_not_DOT).
  split; [done |]. split; [| split; [done |]].
  - cbn [app length]. rewrite length_take.
    pose proof (Nat.mod_upper_bound (length s) 3). lia.
  - rewrite Hconcat. cbn [app]. by rewrite take_drop.
Qed.

End formatNumber_facts.

Example formatNumber_examples :
  formatNumber 426 = js "426" ∧ formatNumber 8682 = js "8.682"
  ∧ formatNumber 1234567 = js "1.234.567" ∧ formatNumber 0 = js "0".
Proof. repeat split; vm_compute; reflexivity. Qed.

Lemma formatNumber_digits_witness :
  filter (λ c, c ≠ DOT) (formatNumber 1234567) = Number_toString 1234567.
Proof. apply (formatNumber_digits 1234567). reflexivity. Defined.

Lemma formatNumber_groups_witness :
  ∃ first others,
    split DOT (formatNumber 1234567) = first :: others
    ∧ 1 ≤ length first ≤ 3
    ∧ Forall (λ group, length group = 3) others
    ∧ first ++ concat others = Number_toString 1234567.
Proof. apply (formatNumber_groups 1234567). reflexivity. Defined.

(** ** The list of filters *)

Section filters_facts.

Variable Timestamp : Type.
Variable ts_leb : Timestamp → Timestamp → bool.
Variable ts_null : Timestamp.

Hypothesis ts_total : ∀ a b, ts_leb a b = true ∨ ts_leb b a = true.
Hypothesis ts_trans : ∀ a b c, ts_leb a b = true → ts_leb b c = true → ts_leb a c = true.

Lemma insertByCreatedAt_perm row (sorted : list (UserFilter Timestamp)) :
  insertByCreatedAt ts_leb row sorted ≡ₚ row :: sorted.
Proof.
  induction sorted as [| r rest IH]; cbn; [done |].
  destruct (ts_leb _ _); [done |]. rewrite IH. apply Permutation_swap.
Qed.

Lemma orderByCreatedAtDesc_perm (rows : list (UserFilter Timestamp)) :
  orderByCreatedAtDesc ts_leb rows ≡ₚ rows.
Proof.
  induction rows as [| row rows IH]; cbn; [done |].
  by rewrite insertByCreatedAt_perm, IH.
Qed.

Lemma insertByCreatedAt_sorted row (sorted : list (UserFilter Timestamp)) :
  StronglySorted (notOlder ts_leb) sorted →
  StronglySorted (notOlder ts_leb) (insertByCreatedAt ts_leb row sorted).
Proof using ts_total ts_trans.
  induction 1 as [| r rest Hsorted IH Hr]; cbn.
  - repeat constructor.
  - destruct (ts_leb (uf_created_at r) (uf_created_at row)) eqn:Hcmp.
    + constructor; [by constructor |]. constructor; [done |].
      eapply Forall_impl; [exact Hr |]. intros x Hx. unfold notOlder in *.
      by eapply ts_trans.
    + constructor; [done |].
      rewrite insertByCreatedAt_perm. constructor; [| done].
      unfold notOlder. destruct (ts_total (uf_created_at r) (uf_created_at row));
        congruence.
Qed.

(** X17. The list of filters always starts with the "Original Data"
    option, whose filter id is null; after it come all the rows of the
    table, each once, newest first. *)
Theorem listFilters_shape (rows : list (UserFilter Timestamp)) :
  ∃ sorted,
    listFilters ts_leb ts_null rows = originalData ts_null :: sorted
    ∧ uf_filter_id (originalData ts_null) = None
    ∧ sorted ≡ₚ rows
    ∧ StronglySorted (notOlder ts_leb) sorted
    ∧ length (listFilters ts_leb ts_null rows) = S (length rows).
Proof using ts_total ts_trans.
  exists (orderByCreatedAtDesc ts_leb rows).
  split; [done |]. split; [done |].
  split; [apply orderByCreatedAtDesc_perm |]. split.
  - induction rows as [| row rows IH]; cbn; [constructor |].
    by apply insertByCreatedAt_sorted.
  - cbn. by rewrite orderByCreatedAtDesc_perm.
Qed.

End filters_facts.

Lemma listFilters_shape_witness :
  let row (id : string) (t : N) : UserFilter N :=
    {| uf_filter_id := Some (js id); uf_filter_name := js "filter";
       uf_filter_url := None; uf_organizations_count := Some 3%Z;
       uf_created_at := t; uf_last_used := t |} in
  let rows := [row "11" 10%N; row "12" 30%N; row "13" 20%N] in
  listFilters N.leb 0%N rows
  = [originalData 0%N; row "12" 30%N; row "13" 20%N; row "11" 10%N]
  ∧ ∃ sorted, listFilters N.leb 0%N rows = originalData 0%N :: sorted
              ∧ sorted ≡ₚ rows.
Proof.
  intros row rows. split; [reflexivity |].
  assert (Htotal : ∀ a b : N, N.leb a b = true ∨ N.leb b a = true).
  { intros a b. rewrite !N.leb_le. lia. }
  assert (Htrans : ∀ a b c : N, N.leb a b = true → N.leb b c = true → N.leb a c = true).
  { intros a b c. rewrite !N.leb_le. lia. }
  destruct (listFilters_shape N N.leb 0%N Htotal Htrans rows)
    as (sorted & Hlist & _ & Hperm & _).
  by exists sorted.
Defined.

Lemma copy_paste_round_trip_witness :
  let textA := js "Acme Inc" ++ [LF] ++ js "ACME INC" ++ [LF] ++ js "Globex" in
  let textB := js "acme inc" ++ [LF] ++ js "Initech" in
  let options := {| trim := true; caseInsensitive := true |} in
  let keys := matches (results asciiToLowerCase textA textB options) in
  set (toUniqueSet asciiToLowerCase
         (splitLines (copyText asciiToLowerCase textA textB options keys)) options)
  = keys.
Proof.
  intros textA textB options keys.
  apply (copy_paste_round_trip asciiToLowerCase eq_refl textA textB options keys).
  by left.
Defined.

(** ** What a match is, in terms of the lines *)

(** X18. A key is a match exactly when a line of A and a line of B both
    normalize to it and it is not empty; it is only in A exactly when a
    line of A normalizes to it and no line of B does. *)
Theorem reconcile_lines (toLowerCase : jsstring → jsstring)
    (linesA linesB : list jsstring) (options : NormalizeOptions) (k : jsstring) :
  let r := reconcile toLowerCase linesA linesB options in
  let produces lines :=
    ∃ raw, raw ∈ lines ∧ normalizeLine toLowerCase raw options = k in
  (k ∈ matches r ↔ k ≠ [] ∧ produces linesA ∧ produces linesB)
  ∧ (k ∈ onlyA r ↔ k ≠ [] ∧ produces linesA ∧ ¬ produces linesB)
  ∧ (k ∈ onlyB r ↔ k ≠ [] ∧ produces linesB ∧ ¬ produces linesA).
Proof.
  intros r produces.
  change (matches r) with (setIntersection (set (toUniqueSet toLowerCase linesA options))
                             (set (toUniqueSet toLowerCase linesB options))).
  change (onlyA r) with (setDifference (set (toUniqueSet toLowerCase linesA options))
                           (set (toUniqueSet toLowerCase linesB options))).
  change (onlyB r) with (setDifference (set (toUniqueSet toLowerCase linesB options))
                           (set (toUniqueSet toLowerCase linesA options))).
  rewrite elem_of_setIntersection, !elem_of_setDifference, !elem_of_set_toUniqueSet.
  fold (produces linesA) (produces linesB). tauto.
Qed.

(** ** Case-insensitive matching on ASCII names *)

Lemma replaceNbsp_ascii s : isAscii s → replaceNbsp s = s.
Proof.
  intros Hs. apply replaceNbsp_id. intros Hin.
  eapply Forall_forall in Hs; [| exact Hin]. by vm_compute in Hs.
Qed.

Section case_folding.

Variable toLowerCase : jsstring → jsstring.
Hypothesis toLowerCase_ascii : ∀ s, isAscii s → toLowerCase s = asciiToLowerCase s.

(** X19. With [caseInsensitive] set, two ASCII lines that differ only in
    the case of their letters get the same key, with or without [trim]; so
    they count as one name. *)
Theorem normalizeLine_ascii_case (x y : jsstring) (trimming : bool) :
  isAscii x → isAscii y → asciiToLowerCase x = asciiToLowerCase y →
  let options := {| trim := trimming; caseInsensitive := true |} in
  normalizeLine toLowerCase x options = normalizeLine toLowerCase y options
  ∧ set (toUniqueSet toLowerCase [x; y] options)
    = set (toUniqueSet toLowerCase [x] options).
Proof using toLowerCase_ascii.
  intros Hx Hy Hxy options.
  assert (Hnorm : ∀ z, isAscii z →
            normalizeLine toLowerCase z options
            = (if trimming then String_trim (asciiToLowerCase z)
               else asciiToLowerCase z)).
  { intros z Hz. unfold normalizeLine, options. cbn [trim caseInsensitive].
    rewrite replaceNbsp_ascii by done. destruct trimming.
    - rewrite toLowerCase_ascii by by apply isAscii_String_trim.
      unfold asciiToLowerCase.
      by rewrite String_trim_fmap by apply isWhiteSpace_asciiLowerUnit.
    - by apply toLowerCase_ascii. }
  assert (Heq : normalizeLine toLowerCase x options = normalizeLine toLowerCase y options)
    by (by rewrite !Hnorm, Hxy by done).
  split; [done |].
  rewrite !set_firstOccurrences. unfold accepted.
  rewrite !filter_cons, !filter_nil, <- Heq.
  destruct (decide (normalizeLine toLowerCase x options ≠ [])) as [Hne | Hnil]; [| done].
  rewrite !fmap_cons. cbn [firstOccurrences fmap list_fmap].
  rewrite <- Heq, !filter_nil. by rewrite filter_cons_False by (intros Hn; by apply Hn).
Qed.

End case_folding.

Lemma normalizeLine_ascii_case_witness :
  let options := {| trim := true; caseInsensitive := true |} in
  normalizeLine asciiToLowerCase (js "Acme Inc") options
  = normalizeLine asciiToLowerCase (js "ACME inc") options.
Proof.
  intros options.
  apply (normalizeLine_ascii_case asciiToLowerCase (λ s _, eq_refl)
           (js "Acme Inc") (js "ACME inc") true).
  - repeat constructor.
  - repeat constructor.
  - reflexivity.
Defined.
